(** * usbcat: the FunctionFS byte relay of [examples/usbcat/device.py]

    A shallow embedding of the [USBCat] function object and of the
    dispatcher's interruptible wait, together with the properties of its
    completion, lifecycle and notification handlers.

    The handlers talk to three collaborators that live outside the file:
    the libaio context ([submit], [cancel], [getEvents]), the eventfd and
    the local sink ([_writer]).  Every call to one of them is recorded, with
    the answer it got, in a log of [action]s; the answers themselves are
    supplied by an [Env].  A handler is a computation over the [USBCat]
    object that returns normally or raises. *)

From Stdlib Require Import ZArith Lia String.
From stdpp Require Import base list gmap.

Local Open Scope Z_scope.

(** ** Constants *)

(** [errno.ESHUTDOWN] and [errno.EINTR], with their Linux values.  The
    proofs below use of them only that ESHUTDOWN is positive. *)
Definition ESHUTDOWN : Z := 108.
Definition EINTR : Z := 4.

(** More than one, so one block is processed while the kernel fills the other. *)
Definition PENDING_READ_COUNT : nat := 2.
Definition BUF_SIZE : nat := (1024 * 1024)%nat.
Arguments BUF_SIZE : simpl never.

(** ** Data model *)

Definition addr := nat.
Definition bytearray := list Byte.byte.

Inductive aio_mode := AIOBLOCK_MODE_READ | AIOBLOCK_MODE_WRITE.

(** [libaio.AIOBlock(mode, target_file, buffer_list, offset, eventfd,
    onCompletion)].  [iocb] is the identity of the block object;
    [buffer_list] holds references to bytearray objects, not their
    contents.  The last two constructor arguments are the same for every
    block of the file (the function's eventfd and [_onReceived]). *)
Record AIOBlock := mkAIOBlock {
  iocb : nat;
  mode : aio_mode;
  target_file : nat;
  buffer_list : list addr;
  offset : Z
}.

Global Instance aio_mode_eq_dec : EqDecision aio_mode.
Proof. solve_decision. Defined.

Global Instance AIOBlock_eq_dec : EqDecision AIOBlock.
Proof. solve_decision. Defined.

(** The attributes of the [USBCat] object that its handlers read or assign. *)
Record USBCat := mkUSBCat {
  _enabled : bool;
  _aio_recv_block_list : list AIOBlock
}.

Inductive exn :=
| OSError (errno : Z)
| IOError (errno : Z)
| IndexError
| KeyboardInterrupt
| EOFError
| Exception (cls : string).

Inductive outcome (A : Type) :=
| Return (a : A)
| Raise (e : exn).
Arguments Return {A} a.
Arguments Raise {A} e.

(** What [trace] is given to print. *)
Inductive trace_msg :=
| T_onBind
| T_onUnbind
| T_onEnable
| T_onDisable
| T_cancelling_raised (block : AIOBlock) (exc : Z)
| T_eventfd_reports (event_count : Z)
| T_completion_error (code : Z)
| T_completion_received (res : Z).

(** One call to a collaborator, with its answer ([None]: it returned). *)
Inductive action :=
| Trace (m : trace_msg)
| Submit (block_list : list AIOBlock) (r : option exn)
| Cancel (block : AIOBlock) (r : option exn)
| EventfdRead (r : outcome Z)
| GetEvents (min_count max_count timeout : option Z) (r : option exn)
| Writer (payload : bytearray) (r : option exn).

(** The answers of the collaborators during one handler invocation. *)
Record Env := mkEnv {
  aio_submit : list AIOBlock -> option exn;
  aio_cancel : AIOBlock -> option exn;
  aio_getEvents : option exn;
  eventfd_read : outcome Z;
  writer : bytearray -> option exn
}.

(** ** Handler computations: state, log and exceptions *)

Definition M (A : Type) : Type := USBCat -> outcome A * USBCat * list action.

Global Instance M_ret : MRet M := fun A a s => (Return a, s, []).

Global Instance M_bind : MBind M := fun A B f m s =>
  match m s with
  | (Return a, s1, t1) =>
      match f a s1 with
      | (o, s2, t2) => (o, s2, t1 ++ t2)
      end
  | (Raise e, s1, t1) => (Raise e, s1, t1)
  end.

Definition raise {A : Type} (e : exn) : M A := fun s => (Raise e, s, []).
Definition emit (a : action) : M unit := fun s => (Return tt, s, [a]).
Definition get_self : M USBCat := fun s => (Return s, s, []).
Definition set_enabled (b : bool) : M unit := fun s =>
  (Return tt, mkUSBCat b (_aio_recv_block_list s), []).

(** A call that returns nothing: logged, then it returns or raises. *)
Definition call (a : action) (r : option exn) : M unit :=
  emit a;;
  match r with
  | None => mret tt
  | Some e => raise e
  end.

Definition trace (m : trace_msg) : M unit := emit (Trace m).

Definition outcome_of {A : Type} (x : outcome A * USBCat * list action) : outcome A :=
  fst (fst x).
Definition state_of {A : Type} (x : outcome A * USBCat * list action) : USBCat :=
  snd (fst x).
Definition log_of {A : Type} (x : outcome A * USBCat * list action) : list action :=
  snd x.

(** ** class USBCat *)

Module USBCat_methods.

(** [__init__]: the list comprehension allocates one fresh
    [bytearray(BUF_SIZE)] per block, in an (initially empty) object store,
    and builds a read block on endpoint 2 around it. *)
Fixpoint make_blocks (n : nat) (to_host : nat) (store : list bytearray)
  : list AIOBlock * list bytearray :=
  match n with
  | O => ([], store)
  | S n' =>
      let a := length store in
      let '(rest, store') :=
        make_blocks n' to_host (store ++ [replicate BUF_SIZE Byte.x00]) in
      (mkAIOBlock a AIOBLOCK_MODE_READ to_host [a] 0 :: rest, store')
  end.

Definition __init__ : USBCat * list bytearray :=
  let '(blocks, store) := make_blocks PENDING_READ_COUNT 2 [] in
  (mkUSBCat false blocks, store).

Definition onBind : M unit := trace T_onBind.

Definition onUnbind : M unit :=
  trace T_onUnbind;;
  set_enabled false.

(** The body of the [for] loop of [_disable], block by block: only
    [OSError] is caught. *)
Fixpoint cancel_each (env : Env) (blocks : list AIOBlock) : M unit :=
  match blocks with
  | [] => mret tt
  | block :: rest =>
      match aio_cancel env block with
      | None => emit (Cancel block None)
      | Some (OSError exc) =>
          emit (Cancel block (Some (OSError exc)));;
          trace (T_cancelling_raised block exc)
      | Some e => call (Cancel block (Some e)) (Some e)
      end;;
      cancel_each env rest
  end.

Definition _disable (env : Env) : M unit :=
  self ← get_self;
  if _enabled self then
    cancel_each env (_aio_recv_block_list self);;
    set_enabled false
  else mret tt.

Definition onEnable (env : Env) : M unit :=
  trace T_onEnable;;
  _disable env;;
  self ← get_self;
  call (Submit (_aio_recv_block_list self)
          (aio_submit env (_aio_recv_block_list self)))
       (aio_submit env (_aio_recv_block_list self));;
  set_enabled true.

Definition onDisable (env : Env) : M unit :=
  trace T_onDisable;;
  _disable env.

Definition onAIOCompletion (env : Env) : M unit :=
  emit (EventfdRead (eventfd_read env));;
  match eventfd_read env with
  | Raise e => raise e
  | Return event_count =>
      trace (T_eventfd_reports event_count);;
      call (GetEvents None None None (aio_getEvents env)) (aio_getEvents env)
  end.

(** [store] is the object store as the kernel left it when the completion
    is delivered; [block.buffer_list[0][:res]] is read from it. *)
Definition _onReceived (env : Env) (store : list bytearray)
    (block : AIOBlock) (res res2 : Z) : M unit :=
  (if bool_decide (res ≠ - ESHUTDOWN)
   then call (Submit [block] (aio_submit env [block])) (aio_submit env [block])
   else mret tt);;
  if bool_decide (res < 0) then
    trace (T_completion_error (- res))
  else
    trace (T_completion_received res);;
    match buffer_list block !! 0%nat with
    | None => raise IndexError
    | Some a =>
        let payload := take (Z.to_nat res) (store !!! a) in
        call (Writer payload (writer env payload)) (writer env payload)
    end.

End USBCat_methods.

(** ** main: the dispatcher's wait *)

(** What one call of [epoll.poll()] gives: a list of (fd, event mask)
    pairs, or an exception. *)
Definition poll_answer := outcome (list (Z * Z)).

(** [noIntrEpoll], run against the answers that the successive calls of
    [epoll.poll()] get.  It gives the outcome of the loop and the answers
    left for later calls, or [None] when every answer supplied was an
    interruption, in which case the loop is still waiting. *)
Fixpoint noIntrEpoll (polls : list poll_answer)
  : option (poll_answer * list poll_answer) :=
  match polls with
  | [] => None
  | Return ready :: later => Some (Return ready, later)
  | Raise (IOError errno) :: later =>
      if bool_decide (errno ≠ EINTR)
      then Some (Raise (IOError errno), later)
      else noIntrEpoll later
  | Raise e :: later => Some (Raise e, later)
  end.

(** The number of [epoll.poll()] calls that [noIntrEpoll] makes. *)
Fixpoint noIntrEpoll_calls (polls : list poll_answer) : nat :=
  match polls with
  | [] => O
  | Raise (IOError errno) :: later =>
      if bool_decide (errno ≠ EINTR) then 1%nat
      else S (noIntrEpoll_calls later)
  | _ :: _ => 1%nat
  end.

(** ** The function object together with the context it drives *)

(** [in_flight] is the ledger of the AIO context: the blocks handed to a
    [submit] call that returned, whose completion has not been delivered to
    [_onReceived] yet.  [memory] is the object store holding the
    bytearrays. *)
Record System := mkSystem {
  usbcat : USBCat;
  in_flight : list AIOBlock;
  memory : list bytearray
}.

Inductive event :=
| ev_bind
| ev_unbind
| ev_enable
| ev_disable
| ev_completion (block : AIOBlock) (res res2 : Z)
| ev_kernel_write (a : addr) (data : bytearray).

(** The blocks that the calls of a log put in flight. *)
Fixpoint submitted (log : list action) : list AIOBlock :=
  match log with
  | [] => []
  | Submit block_list None :: log' => block_list ++ submitted log'
  | _ :: log' => submitted log'
  end.

(** Removes one occurrence of [block] (its completion has been reaped). *)
Fixpoint reap (block : AIOBlock) (l : list AIOBlock) : list AIOBlock :=
  match l with
  | [] => []
  | b :: l' => if decide (b = block) then l' else b :: reap block l'
  end.

(** The kernel fills a buffer in place, from its start; the bytearray
    object keeps its size. *)
Definition fill (data buf : bytearray) : bytearray :=
  take (length buf) (data ++ drop (length data) buf).

Definition handler (env : Env) (store : list bytearray) (ev : event) : M unit :=
  match ev with
  | ev_bind => USBCat_methods.onBind
  | ev_unbind => USBCat_methods.onUnbind
  | ev_enable => USBCat_methods.onEnable env
  | ev_disable => USBCat_methods.onDisable env
  | ev_completion block res res2 =>
      USBCat_methods._onReceived env store block res res2
  | ev_kernel_write _ _ => mret tt
  end.

(** Modelled from the spec: the routing of a lifecycle signal to the
    callback of its name (done by [functionfs.Function.processEvents]) and
    the delivery of one completion event to the block's [onCompletion]
    (done by libaio), neither of which is in this file. *)
Definition step (env : Env) (ev : event) (sys : System) : outcome unit * System :=
  let pending :=
    match ev with
    | ev_completion block _ _ => reap block (in_flight sys)
    | _ => in_flight sys
    end in
  let store :=
    match ev with
    | ev_kernel_write a data => alter (fill data) a (memory sys)
    | _ => memory sys
    end in
  match handler env store ev (usbcat sys) with
  | (o, self, log) => (o, mkSystem self (pending ++ submitted log) store)
  end.

(** The callbacks reached from the loop of [main], over a sequence of
    events, each with the answers its handler gets; an exception that
    leaves a handler leaves the loop. *)
Fixpoint run (evs : list (Env * event)) (sys : System) : outcome unit * System :=
  match evs with
  | [] => (Return tt, sys)
  | (env, ev) :: evs' =>
      match step env ev sys with
      | (Return _, sys') => run evs' sys'
      | (Raise e, sys') => (Raise e, sys')
      end
  end.

Definition init_system : System :=
  mkSystem (fst USBCat_methods.__init__) [] (snd USBCat_methods.__init__).

(** A collaborator that always answers without raising. *)
Definition quiet : Env :=
  mkEnv (fun _ => None) (fun _ => None) None (Return 1) (fun _ => None).

(** The two blocks built by [__init__]. *)
Definition block0 : AIOBlock := mkAIOBlock 0 AIOBLOCK_MODE_READ 2 [0%nat] 0.
Definition block1 : AIOBlock := mkAIOBlock 1 AIOBLOCK_MODE_READ 2 [1%nat] 0.

(** ** Reading a log *)

Definition is_aio_call (a : action) : bool :=
  match a with
  | Submit _ _ | Cancel _ _ | GetEvents _ _ _ _ => true
  | _ => false
  end.

(** The blocks named by the cancellation requests of a log, in order. *)
Fixpoint cancelled (log : list action) : list AIOBlock :=
  match log with
  | [] => []
  | Cancel block _ :: log' => block :: cancelled log'
  | _ :: log' => cancelled log'
  end.

(** The block lists of the submissions requested by a log, in order. *)
Fixpoint submissions (log : list action) : list (list AIOBlock) :=
  match log with
  | [] => []
  | Submit block_list _ :: log' => block_list :: submissions log'
  | _ :: log' => submissions log'
  end.

(** The bytes that the sink receives from a log. *)
Fixpoint sink_bytes (log : list action) : bytearray :=
  match log with
  | [] => []
  | Writer payload _ :: log' => payload ++ sink_bytes log'
  | _ :: log' => sink_bytes log'
  end.

(** The payloads of the calls to the sink, in order. *)
Fixpoint payloads (log : list action) : list bytearray :=
  match log with
  | [] => []
  | Writer payload _ :: log' => payload :: payloads log'
  | _ :: log' => payloads log'
  end.

(** ** Vocabulary of the statements *)

(** A cancellation that returns, or raises the one exception that
    [_disable] catches. *)
Definition benign (r : option exn) : Prop :=
  r = None ∨ ∃ exc, r = Some (OSError exc).

(** A context in which cancelling the first block fails with EINVAL. *)
Definition first_cancel_fails : Env :=
  mkEnv (fun _ => None)
        (fun b => if decide (b = block0) then Some (OSError 22) else None)
        None (Return 1) (fun _ => None).

(** [epoll.poll()] interrupted by a signal. *)
Definition interrupted : poll_answer := Raise (IOError EINTR).

(** The in-flight count stands where the lifecycle flag says it should:
    the configured level when enabled, none when disabled. *)
Definition settled (sys : System) : Prop :=
  length (in_flight sys) =
    if _enabled (usbcat sys) then PENDING_READ_COUNT else 0%nat.

(** A drain: nothing but completions, each of a block that is in flight
    when it is delivered. *)
Fixpoint drain (evs : list (Env * event)) (sys : System) : Prop :=
  match evs with
  | [] => True
  | (env, ev_completion block res res2) :: evs' =>
      block ∈ in_flight sys
      ∧ drain evs' (snd (step env (ev_completion block res res2) sys))
  | _ :: _ => False
  end.

(** Some drain of the completions still due brings the system to rest. *)
Definition converges (sys : System) : Prop :=
  ∃ evs, drain evs sys ∧ settled (snd (run evs sys)).


(** What construction establishes and every event keeps: the pool is the
    one built by [__init__], and each bytearray of the object store has
    the size it was allocated with. *)
Definition well_formed (sys : System) : Prop :=
  _aio_recv_block_list (usbcat sys) =
    _aio_recv_block_list (fst USBCat_methods.__init__)
  ∧ length (memory sys) = PENDING_READ_COUNT
  ∧ Forall (fun buf : bytearray => length buf = BUF_SIZE) (memory sys).

(** A completion that carries the shutdown-abort code. *)
Definition is_shutdown_abort (ev : event) : bool :=
  match ev with
  | ev_completion _ res _ => bool_decide (res = - ESHUTDOWN)
  | _ => false
  end.

(** The signals by which the kernel tells that the endpoints are gone. *)
Definition is_disabling (ev : event) : bool :=
  match ev with
  | ev_disable | ev_unbind => true
  | _ => false
  end.

(** The kernel aborts the reads of a live function only when it shuts its
    endpoints down, which it reports: in the sequence, every shutdown-abort
    delivered while the function is marked enabled is followed by a disable
    or an unbind signal. *)
Fixpoint announced (evs : list (Env * event)) (sys : System) : Prop :=
  match evs with
  | [] => True
  | (env, ev) :: evs' =>
      (is_shutdown_abort ev = true → _enabled (usbcat sys) = true →
       Exists (fun x => is_disabling (snd x) = true) evs')
      ∧ announced evs' (snd (step env ev sys))
  end.

(** ** The rest of the file: [close], and [main] with its nested functions *)

(** [os.O_NONBLOCK] and [select.EPOLLIN], with their Linux values. *)
Definition O_NONBLOCK : Z := 2048.
Definition EPOLLIN : Z := 1.

(** The calls made by [close] and by [main]: those of a [USBCat] method
    modelled above, and the calls to the context, to the base class, to
    fcntl, to epoll, to the standard input and to the IN endpoint. *)
Inductive io :=
| Method (a : action)
| ContextClose (r : option exn)
| FunctionClose (r : option exn)
| FcntlGetfl (r : outcome Z)
| FcntlSetfl (flags : Z) (r : option exn)
| EpollRegister (fileno : Z) (eventmask : Z) (r : option exn)
| TraceEpoll (fd event : Z)
| StdinRead (size : nat) (r : outcome bytearray)
| TraceSending (n : nat)
| EndpointWrite (buf : bytearray) (r : option exn).

(** Computations of [main]: over any state, with a log of [io] calls. *)
Definition P (St A : Type) : Type := St -> outcome A * St * list io.

Global Instance P_ret (St : Type) : MRet (P St) := fun A a s => (Return a, s, []).

Global Instance P_bind (St : Type) : MBind (P St) := fun A B f m s =>
  match m s with
  | (Return a, s1, t1) =>
      match f a s1 with
      | (o, s2, t2) => (o, s2, t1 ++ t2)
      end
  | (Raise e, s1, t1) => (Raise e, s1, t1)
  end.

Definition praise {St A : Type} (e : exn) : P St A := fun s => (Raise e, s, []).
Definition pemit {St : Type} (a : io) : P St unit := fun s => (Return tt, s, [a]).
Definition pmodify {St : Type} (f : St -> St) : P St unit := fun s =>
  (Return tt, f s, []).
Definition pcall {St : Type} (a : io) (r : option exn) : P St unit :=
  pemit a;;
  match r with
  | None => mret tt
  | Some e => praise e
  end.

(** A method of the object, called from outside the class. *)
Definition lift {A : Type} (m : M A) : P USBCat A := fun s =>
  match m s with
  | (o, s', t) => (o, s', Method <$> t)
  end.

(** [USBCat.close]; the two arguments after [env] are the answers of
    [self._aio_context.close()] and of [super(USBCat, self).close()]. *)
Definition close (env : Env) (context_close function_close : option exn)
  : P USBCat unit :=
  lift (USBCat_methods._disable env);;
  pcall (ContextClose context_close) context_close;;
  pcall (FunctionClose function_close) function_close.

Module Main.

Section nested_functions.
Context {St : Type}.

(** [sender]: [stdin_read] is the answer of [sys.stdin.read(BUF_SIZE)] and
    [write] that of [function.write], the write method of endpoint 1. *)
Definition sender (stdin_read : outcome bytearray)
    (write : bytearray -> option exn) : P St unit :=
  pemit (StdinRead BUF_SIZE stdin_read);;
  match stdin_read with
  | Raise e => praise e
  | Return buf =>
      pemit (TraceSending (length buf));;
      pcall (EndpointWrite buf (write buf)) (write buf)
  end.

(** [register], over [event_dispatcher_dict]; [epoll_register] is the
    answer of [epoll.register] for a descriptor. *)
Definition register (epoll_register : Z -> option exn) (fileno : Z)
    (handler : P St unit) : P (gmap Z (P St unit)) unit :=
  pcall (EpollRegister fileno EPOLLIN (epoll_register fileno))
        (epoll_register fileno);;
  pmodify (fun event_dispatcher_dict => <[fileno := handler]> event_dispatcher_dict).

(** The two [fcntl] calls on the standard input: the flags are read, then
    set again with [O_NONBLOCK] or-ed in. *)
Definition set_nonblocking (getfl : outcome Z) (setfl : Z -> option exn)
  : P St unit :=
  pemit (FcntlGetfl getfl);;
  match getfl with
  | Raise e => praise e
  | Return flags =>
      pcall (FcntlSetfl (Z.lor flags O_NONBLOCK) (setfl (Z.lor flags O_NONBLOCK)))
            (setfl (Z.lor flags O_NONBLOCK))
  end.

(** The [for] loop over what [noIntrEpoll] returned; a descriptor absent
    from the dict raises KeyError. *)
Fixpoint dispatch (event_dispatcher_dict : gmap Z (P St unit))
    (ready : list (Z * Z)) : P St unit :=
  match ready with
  | [] => mret tt
  | (fd, event) :: rest =>
      pemit (TraceEpoll fd event);;
      match event_dispatcher_dict !! fd with
      | Some handler => handler
      | None => praise (Exception "KeyError")
      end;;
      dispatch event_dispatcher_dict rest
  end.

(** The [while True] loop, run against the answers that the successive
    calls of [epoll.poll()] get.  The first component of the result is
    [None] when the answers are used up and the loop is waiting in
    [noIntrEpoll]; the state and the log are those reached so far.  Every
    turn uses up at least one answer, so [fuel] turns are enough once
    [fuel] exceeds their number. *)
Fixpoint main_loop_fuel (fuel : nat) (event_dispatcher_dict : gmap Z (P St unit))
    (polls : list poll_answer) (s : St) : option (outcome unit) * St * list io :=
  match fuel with
  | O => (None, s, [])
  | S fuel' =>
      match noIntrEpoll polls with
      | None => (None, s, [])
      | Some (Raise e, _) => (Some (Raise e), s, [])
      | Some (Return ready, later) =>
          match dispatch event_dispatcher_dict ready s with
          | (Return _, s', log) =>
              match main_loop_fuel fuel' event_dispatcher_dict later s' with
              | (o, s'', log') => (o, s'', log ++ log')
              end
          | (Raise e, s', log) => (Some (Raise e), s', log)
          end
      end
  end.

Definition main_loop (event_dispatcher_dict : gmap Z (P St unit))
    (polls : list poll_answer) (s : St) : option (outcome unit) * St * list io :=
  main_loop_fuel (S (length polls)) event_dispatcher_dict polls s.

(** [except (KeyboardInterrupt, EOFError): pass] *)
Definition passed (e : exn) : bool :=
  match e with
  | KeyboardInterrupt | EOFError => true
  | _ => false
  end.

(** The [try] statement around the loop. *)
Definition try_main_loop (event_dispatcher_dict : gmap Z (P St unit))
    (polls : list poll_answer) (s : St) : option (outcome unit) * St * list io :=
  match main_loop event_dispatcher_dict polls s with
  | (Some (Raise e), s', log) =>
      if passed e then (Some (Return tt), s', log) else (Some (Raise e), s', log)
  | r => r
  end.

(** The three registrations of [main], in order, from an empty dict. *)
Definition registrations (epoll_register : Z -> option exn)
    (eventfd ep0 stdin : Z) (onAIOCompletion processEvents sender : P St unit)
  : outcome unit * gmap Z (P St unit) * list io :=
  (register epoll_register eventfd onAIOCompletion;;
   register epoll_register ep0 processEvents;;
   register epoll_register stdin sender) ∅.

(** The body of the [with] statement of [main]. *)
Definition with_body (getfl : outcome Z) (setfl : Z -> option exn)
    (epoll_register : Z -> option exn) (eventfd ep0 stdin : Z)
    (onAIOCompletion processEvents sender : P St unit)
    (polls : list poll_answer) (s : St) : option (outcome unit) * St * list io :=
  match set_nonblocking getfl setfl s with
  | (Raise e, s0, log0) => (Some (Raise e), s0, log0)
  | (Return _, s0, log0) =>
      match registrations epoll_register eventfd ep0 stdin
              onAIOCompletion processEvents sender with
      | (Raise e, _, log1) => (Some (Raise e), s0, log0 ++ log1)
      | (Return _, event_dispatcher_dict, log1) =>
          match try_main_loop event_dispatcher_dict polls s0 with
          | (o, s1, log2) => (o, s1, log0 ++ log1 ++ log2)
          end
      end
  end.

End nested_functions.

End Main.

(** The calls of [USBCat] methods found in a log of [main] or [close]. *)
Fixpoint method_calls (log : list io) : list action :=
  match log with
  | [] => []
  | Method a :: log' => a :: method_calls log'
  | _ :: log' => method_calls log'
  end.

(** The buffers handed to the IN endpoint by a log, in order. *)
Fixpoint endpoint_writes (log : list io) : list bytearray :=
  match log with
  | [] => []
  | EndpointWrite buf _ :: log' => buf :: endpoint_writes log'
  | _ :: log' => endpoint_writes log'
  end.

(** The descriptors whose handler was looked up by a log, in order. *)
Fixpoint dispatched (log : list io) : list Z :=
  match log with
  | [] => []
  | TraceEpoll fd _ :: log' => fd :: dispatched log'
  | _ :: log' => dispatched log'
  end.

(** * Properties *)

(** ** Logs *)

Section log_lemmas.

Lemma submissions_app (l1 l2 : list action) :
  submissions (l1 ++ l2) = submissions l1 ++ submissions l2.
Proof.
  induction l1 as [|a l1 IH]; [reflexivity|].
  destruct a; simpl; rewrite IH; reflexivity.
Qed.

Lemma submitted_app (l1 l2 : list action) :
  submitted (l1 ++ l2) = submitted l1 ++ submitted l2.
Proof.
  induction l1 as [|a l1 IH]; [reflexivity|].
  destruct a as [| bl [e|] | | | |]; simpl; rewrite IH; try reflexivity.
  apply app_assoc.
Qed.

Lemma cancelled_app (l1 l2 : list action) :
  cancelled (l1 ++ l2) = cancelled l1 ++ cancelled l2.
Proof.
  induction l1 as [|a l1 IH]; [reflexivity|].
  destruct a; simpl; rewrite IH; reflexivity.
Qed.

Lemma payloads_app (l1 l2 : list action) :
  payloads (l1 ++ l2) = payloads l1 ++ payloads l2.
Proof.
  induction l1 as [|a l1 IH]; [reflexivity|].
  destruct a; simpl; rewrite IH; reflexivity.
Qed.

Lemma sink_bytes_payloads (l : list action) :
  sink_bytes l = concat (payloads l).
Proof.
  induction l as [|a l IH]; [reflexivity|].
  destruct a; simpl; rewrite ?IH; reflexivity.
Qed.

End log_lemmas.

(** ** The completion handler *)

Module Completion.
Import USBCat_methods.

(** The handler never assigns an attribute of the object. *)
Lemma onReceived_state env store block res res2 s :
  state_of (_onReceived env store block res res2 s) = s.
Proof.
  unfold _onReceived, state_of, call, trace, emit, raise, mbind, M_bind, mret, M_ret.
  destruct (bool_decide (res ≠ - ESHUTDOWN)), (bool_decide (res < 0));
    destruct (aio_submit env [block]); simpl; try reflexivity.
  all: destruct (buffer_list block !! 0%nat); simpl; try reflexivity.
  all: destruct (writer env _); reflexivity.
Qed.

(** The log of the handler, case by case. *)
Lemma onReceived_log env store block res res2 s :
  log_of (_onReceived env store block res res2 s) =
  (if bool_decide (res ≠ - ESHUTDOWN)
   then [Submit [block] (aio_submit env [block])] else []) ++
  (if bool_decide (res ≠ - ESHUTDOWN) && bool_decide (is_Some (aio_submit env [block]))
   then []
   else if bool_decide (res < 0) then [Trace (T_completion_error (- res))]
   else Trace (T_completion_received res) ::
        match buffer_list block !! 0%nat with
        | None => []
        | Some a =>
            [Writer (take (Z.to_nat res) (store !!! a))
                    (writer env (take (Z.to_nat res) (store !!! a)))]
        end).
Proof.
  unfold _onReceived, log_of, call, trace, emit, raise, mbind, M_bind, mret, M_ret.
  destruct (bool_decide (res ≠ - ESHUTDOWN)), (bool_decide (res < 0));
    destruct (aio_submit env [block]); simpl; try reflexivity.
  all: destruct (buffer_list block !! 0%nat); simpl; try reflexivity.
  all: destruct (writer env _); reflexivity.
Qed.

(** The submissions requested by the handler. *)
Lemma onReceived_submissions env store block res res2 s :
  submissions (log_of (_onReceived env store block res res2 s)) =
    (if bool_decide (res = - ESHUTDOWN) then [] else [[block]]).
Proof.
  rewrite onReceived_log, submissions_app.
  repeat case_bool_decide; simpl; try congruence;
    try reflexivity; try (destruct (buffer_list block !! 0%nat); reflexivity).
Qed.

(** C1: a completion whose result is the shutdown-abort code makes the
    handler request no submission at all, so the slot is retired; any other
    result, success or error, makes it request exactly one submission, of
    that slot alone.  The handler changes nothing in the object. *)
Theorem onReceived_resubmits_unless_shutdown env store block res res2 s :
  submissions (log_of (_onReceived env store block res res2 s)) =
    (if bool_decide (res = - ESHUTDOWN) then [] else [[block]])
  ∧ state_of (_onReceived env store block res res2 s) = s.
Proof.
  split; [apply onReceived_submissions | apply onReceived_state].
Qed.

(** The calls to the sink made by the handler. *)
Lemma onReceived_payloads env store block res res2 s :
  payloads (log_of (_onReceived env store block res res2 s)) =
  if bool_decide (res ≠ - ESHUTDOWN) && bool_decide (is_Some (aio_submit env [block]))
  then []
  else if bool_decide (res < 0) then []
  else match buffer_list block !! 0%nat with
       | None => []
       | Some a => [take (Z.to_nat res) (store !!! a)]
       end.
Proof.
  rewrite onReceived_log, payloads_app.
  destruct (bool_decide (res ≠ - ESHUTDOWN)),
    (bool_decide (is_Some (aio_submit env [block]))),
    (bool_decide (res < 0)); simpl; try reflexivity.
  all: destruct (buffer_list block !! 0%nat); reflexivity.
Qed.

(** C2, as stated, fails: a completion with byte count 0 of the first
    block still has the handler call the sink, after the resubmission,
    with an empty payload; the call is not reserved to strictly positive
    byte counts. *)
Lemma onReceived_forwards_empty_payload :
  log_of (_onReceived quiet [[Byte.x41; Byte.x42]; []] block0 0 0
            (mkUSBCat true [block0; block1])) =
    [Submit [block0] None; Trace (T_completion_received 0); Writer [] None]
  ∧ ¬ (payloads (log_of (_onReceived quiet [[Byte.x41; Byte.x42]; []] block0 0 0
                           (mkUSBCat true [block0; block1]))) ≠ [] → 0 < 0).
Proof.
  split; [reflexivity|].
  intros H. apply (Z.lt_irrefl 0), H. discriminate.
Qed.

(** C2, amended: for a result other than the shutdown-abort code the first
    call of the handler is the resubmission of the same slot, so the sink
    is only called after it, and nothing is submitted afterwards; once the
    resubmission has returned, the sink is called, once, exactly when the
    result is not negative, with the slice [[:res]] of the slot's first
    buffer; with a byte count of 0 that payload is empty and the sink
    receives no byte. *)
Theorem onReceived_resubmits_then_forwards env store block res res2 s a :
  res ≠ - ESHUTDOWN →
  buffer_list block !! 0%nat = Some a →
  (∃ rest,
      log_of (_onReceived env store block res res2 s) =
        Submit [block] (aio_submit env [block]) :: rest
      ∧ submissions rest = [])
  ∧ (res < 0 → payloads (log_of (_onReceived env store block res res2 s)) = [])
  ∧ (0 ≤ res → aio_submit env [block] = None →
     payloads (log_of (_onReceived env store block res res2 s)) =
       [take (Z.to_nat res) (store !!! a)])
  ∧ (is_Some (aio_submit env [block]) →
     payloads (log_of (_onReceived env store block res res2 s)) = [])
  ∧ (res ≤ 0 → sink_bytes (log_of (_onReceived env store block res res2 s)) = []).
Proof.
  intros Hres Ha.
  assert (Hp := onReceived_payloads env store block res res2 s).
  rewrite (bool_decide_eq_true_2 _ Hres), Ha in Hp. cbn [andb] in Hp.
  split; [|split; [|split; [|split]]].
  - rewrite onReceived_log, (bool_decide_eq_true_2 _ Hres). cbn [andb app].
    eexists; split; [reflexivity|].
    repeat case_bool_decide; try reflexivity. by rewrite Ha.
  - intros Hneg. rewrite Hp, (bool_decide_eq_true_2 (res < 0)) by assumption.
    by destruct (bool_decide (is_Some _)).
  - intros Hpos Hsub. rewrite Hp, Hsub.
    rewrite bool_decide_eq_false_2 by (intros [x Hx]; discriminate).
    by rewrite bool_decide_eq_false_2 by lia.
  - intros Hsome. by rewrite Hp, bool_decide_eq_true_2.
  - intros Hle. rewrite sink_bytes_payloads, Hp.
    destruct (bool_decide (is_Some _)); [reflexivity|].
    case_bool_decide; [reflexivity|].
    replace (Z.to_nat res) with O by lia. reflexivity.
Qed.

Lemma onReceived_resubmits_then_forwards_witness :
  payloads
    (log_of (_onReceived quiet [[Byte.x41; Byte.x41; Byte.x42; Byte.x42]; []]
               block0 3 0 (mkUSBCat true [block0; block1]))) =
    [[Byte.x41; Byte.x41; Byte.x42]].
Proof.
  assert (H : 3 ≠ - ESHUTDOWN) by (unfold ESHUTDOWN; lia).
  assert (Ha : buffer_list block0 !! 0%nat = Some 0%nat) by reflexivity.
  assert (Hpos : 0 ≤ 3) by lia.
  exact (proj1 (proj2 (proj2 (onReceived_resubmits_then_forwards quiet
                  [[Byte.x41; Byte.x41; Byte.x42; Byte.x42]; []]
                  block0 3 0 (mkUSBCat true [block0; block1]) 0%nat H Ha)))
           Hpos eq_refl).
Defined.

End Completion.

(** ** The lifecycle handlers *)

Module Lifecycle.
Import USBCat_methods.

Lemma cancel_each_cons env block rest s :
  cancel_each env (block :: rest) s =
  match aio_cancel env block with
  | None =>
      match cancel_each env rest s with
      | (o, s', t) => (o, s', Cancel block None :: t)
      end
  | Some (OSError exc) =>
      match cancel_each env rest s with
      | (o, s', t) =>
          (o, s', Cancel block (Some (OSError exc))
                    :: Trace (T_cancelling_raised block exc) :: t)
      end
  | Some e => (Raise e, s, [Cancel block (Some e)])
  end.
Proof.
  simpl. unfold call, trace, emit, raise, mbind, M_bind, mret, M_ret.
  destruct (aio_cancel env block) as [[]|]; simpl;
    try reflexivity;
    destruct (cancel_each env rest s) as [[o s'] t]; reflexivity.
Qed.

(** The loop assigns nothing and submits nothing, however it ends. *)
Lemma cancel_each_frame env blocks s :
  state_of (cancel_each env blocks s) = s
  ∧ submissions (log_of (cancel_each env blocks s)) = []
  ∧ submitted (log_of (cancel_each env blocks s)) = []
  ∧ payloads (log_of (cancel_each env blocks s)) = [].
Proof.
  induction blocks as [|block rest IH]; [repeat split|].
  rewrite cancel_each_cons.
  destruct IH as (IHs & IHsub & IHin & IHp).
  destruct (aio_cancel env block) as [[]|];
    try (repeat split; reflexivity);
    destruct (cancel_each env rest s) as [[o s'] t];
    unfold state_of, log_of in *; simpl in *; repeat split; assumption.
Qed.

(** With benign answers the loop goes through the whole list, in order,
    returns, and reports each failure to [trace]. *)
Lemma cancel_each_benign env blocks s :
  (∀ b, b ∈ blocks → benign (aio_cancel env b)) →
  outcome_of (cancel_each env blocks s) = Return tt
  ∧ cancelled (log_of (cancel_each env blocks s)) = blocks
  ∧ ∀ b exc, b ∈ blocks → aio_cancel env b = Some (OSError exc) →
      Trace (T_cancelling_raised b exc) ∈ log_of (cancel_each env blocks s).
Proof.
  induction blocks as [|block rest IH]; intros Hall.
  - repeat split. intros b exc Hb. inversion Hb.
  - rewrite cancel_each_cons.
    destruct IH as (IHo & IHc & IHt).
    { intros b Hb. apply Hall. by right. }
    pose proof (Hall block ltac:(by left)) as [Hn | [exc0 He]].
    + rewrite Hn. destruct (cancel_each env rest s) as [[o s'] t].
      unfold outcome_of, log_of in *; simpl in *.
      split; [assumption|]. split; [by rewrite IHc|].
      intros b exc Hb Hexc. right.
      apply elem_of_cons in Hb as [->|Hb]; [congruence|].
      by apply IHt.
    + rewrite He. destruct (cancel_each env rest s) as [[o s'] t].
      unfold outcome_of, log_of in *; simpl in *.
      split; [assumption|]. split; [by rewrite IHc|].
      intros b exc Hb Hexc.
      apply elem_of_cons in Hb as [->|Hb].
      * replace exc with exc0 by congruence. right. left.
      * right. right. by apply IHt.
Qed.

(** Whenever the loop returns, it has gone through the whole list. *)
Lemma cancel_each_returns env blocks s :
  outcome_of (cancel_each env blocks s) = Return tt →
  cancelled (log_of (cancel_each env blocks s)) = blocks.
Proof.
  induction blocks as [|block rest IH]; [reflexivity|].
  rewrite cancel_each_cons.
  destruct (aio_cancel env block) as [[]|];
    try (unfold outcome_of; simpl; discriminate);
    destruct (cancel_each env rest s) as [[o s'] t];
    unfold outcome_of, log_of in *; simpl in *;
    intros Ho; by rewrite (IH Ho).
Qed.

Lemma disable_unfold env s :
  _disable env s =
  if _enabled s then
    match cancel_each env (_aio_recv_block_list s) s with
    | (Return _, s1, t) => (Return tt, mkUSBCat false (_aio_recv_block_list s1), t)
    | (Raise e, s1, t) => (Raise e, s1, t)
    end
  else (Return tt, s, []).
Proof.
  unfold _disable, get_self, set_enabled, mbind, M_bind, mret, M_ret. simpl.
  destruct (_enabled s); [|reflexivity].
  destruct (cancel_each env (_aio_recv_block_list s) s) as [[[[]|e] s1] t];
    simpl; [|reflexivity].
  by rewrite app_nil_r.
Qed.

(** [_disable] never touches the block list and never submits. *)
Lemma disable_frame env s :
  _aio_recv_block_list (state_of (_disable env s)) = _aio_recv_block_list s
  ∧ submissions (log_of (_disable env s)) = []
  ∧ submitted (log_of (_disable env s)) = []
  ∧ payloads (log_of (_disable env s)) = [].
Proof.
  rewrite disable_unfold.
  destruct (_enabled s); [|repeat split].
  pose proof (cancel_each_frame env (_aio_recv_block_list s) s) as (Hs & H1 & H2 & H3).
  destruct (cancel_each env (_aio_recv_block_list s) s) as [[[[]|e] s1] t];
    unfold state_of, log_of in *; simpl in *; subst s1; repeat split; assumption.
Qed.

(** When [_disable] returns the object is disabled, and the requests it
    made are those of the whole pool if it was enabled, none otherwise. *)
Lemma disable_returns env s :
  outcome_of (_disable env s) = Return tt →
  state_of (_disable env s) = mkUSBCat false (_aio_recv_block_list s)
  ∧ cancelled (log_of (_disable env s)) =
      (if _enabled s then _aio_recv_block_list s else []).
Proof.
  rewrite disable_unfold.
  destruct s as [[] pool]; simpl; [|intros _; split; reflexivity].
  pose proof (cancel_each_frame env pool (mkUSBCat true pool)) as (Hs & _).
  pose proof (cancel_each_returns env pool (mkUSBCat true pool)) as Hc.
  destruct (cancel_each env pool (mkUSBCat true pool)) as [[[[]|e] s1] t];
    unfold state_of, outcome_of, log_of in *; simpl in *; [|discriminate].
  intros _. subst s1. split; [reflexivity|]. by apply Hc.
Qed.

(** C3: disabling is idempotent.  From any state, once a first [_disable]
    has returned, a second one returns too, leaves the object exactly as
    the first left it and makes no call at all, hence no cancellation
    request; [onDisable] then only traces its name. *)
Theorem disable_idempotent env1 env2 s :
  outcome_of (_disable env1 s) = Return tt →
  _disable env2 (state_of (_disable env1 s)) =
    (Return tt, state_of (_disable env1 s), [])
  ∧ onDisable env2 (state_of (_disable env1 s)) =
    (Return tt, state_of (_disable env1 s), [Trace T_onDisable]).
Proof.
  intros Ho. destruct (disable_returns env1 s Ho) as [-> _].
  unfold onDisable, trace, emit, mbind, M_bind.
  rewrite disable_unfold. simpl. split; reflexivity.
Qed.

Lemma disable_idempotent_witness :
  outcome_of (_disable quiet (mkUSBCat true [block0; block1])) = Return tt
  ∧ _disable quiet (state_of (_disable quiet (mkUSBCat true [block0; block1]))) =
      (Return tt, mkUSBCat false [block0; block1], []).
Proof.
  assert (H : outcome_of (_disable quiet (mkUSBCat true [block0; block1])) = Return tt)
    by reflexivity.
  split; [exact H|].
  exact (proj1 (disable_idempotent quiet quiet (mkUSBCat true [block0; block1]) H)).
Defined.

Lemma onEnable_unfold env s :
  onEnable env s =
  match _disable env s with
  | (Return _, s1, t1) =>
      match aio_submit env (_aio_recv_block_list s1) with
      | None =>
          (Return tt, mkUSBCat true (_aio_recv_block_list s1),
           Trace T_onEnable :: t1 ++ [Submit (_aio_recv_block_list s1) None])
      | Some e =>
          (Raise e, s1,
           Trace T_onEnable :: t1 ++ [Submit (_aio_recv_block_list s1) (Some e)])
      end
  | (Raise e, s1, t1) => (Raise e, s1, Trace T_onEnable :: t1)
  end.
Proof.
  unfold onEnable, call, trace, emit, raise, get_self, set_enabled,
    mbind, M_bind, mret, M_ret.
  destruct (_disable env s) as [[[[]|e] s1] t1]; simpl; [|reflexivity].
  destruct (aio_submit env (_aio_recv_block_list s1)); reflexivity.
Qed.

(** An [onEnable] that returns has logged [_disable], then one submission
    of the pool, and has left the object enabled. *)
Lemma onEnable_returns env s :
  outcome_of (onEnable env s) = Return tt →
  log_of (onEnable env s) =
    Trace T_onEnable :: log_of (_disable env s)
      ++ [Submit (_aio_recv_block_list s) None]
  ∧ state_of (onEnable env s) = mkUSBCat true (_aio_recv_block_list s).
Proof.
  rewrite onEnable_unfold.
  pose proof (disable_returns env s) as Hd.
  destruct (_disable env s) as [[[[]|e] s1] t1];
    unfold outcome_of, state_of, log_of in *; simpl in *; [|discriminate].
  destruct (Hd eq_refl) as [-> _]. simpl.
  destruct (aio_submit env (_aio_recv_block_list s)); simpl; [discriminate|].
  intros _. split; reflexivity.
Qed.

Lemma onEnable_disable_returned env s :
  outcome_of (onEnable env s) = Return tt →
  outcome_of (_disable env s) = Return tt.
Proof.
  rewrite onEnable_unfold.
  destruct (_disable env s) as [[[[]|e] s1] t1];
    unfold outcome_of; simpl; [reflexivity|discriminate].
Qed.

(** The calls of an [onEnable] that returns: those of [_disable], which
    requests the cancellation of every slot of the pool when the object was
    enabled (none otherwise) and submits nothing, then one submission, of
    the whole pool; the object is left enabled with its pool unchanged. *)
Lemma onEnable_calls env s :
  outcome_of (onEnable env s) = Return tt →
  log_of (onEnable env s) =
    Trace T_onEnable :: log_of (_disable env s)
      ++ [Submit (_aio_recv_block_list s) None]
  ∧ cancelled (log_of (_disable env s)) =
      (if _enabled s then _aio_recv_block_list s else [])
  ∧ submissions (log_of (onEnable env s)) = [_aio_recv_block_list s]
  ∧ state_of (_disable env s) = mkUSBCat false (_aio_recv_block_list s)
  ∧ state_of (onEnable env s) = mkUSBCat true (_aio_recv_block_list s).
Proof.
  intros Ho.
  destruct (onEnable_returns env s Ho) as [Hlog Hst].
  destruct (disable_returns env s (onEnable_disable_returned env s Ho)) as [Hds Hc].
  pose proof (disable_frame env s) as (_ & Hsub & _).
  repeat split; try assumption.
  rewrite Hlog. cbn [submissions]. by rewrite submissions_app, Hsub.
Qed.

(** What a returning [onEnable] does to the system. *)
Lemma step_enable_returns env sys sys' :
  step env ev_enable sys = (Return tt, sys') →
  outcome_of (onEnable env (usbcat sys)) = Return tt
  ∧ sys' = mkSystem (mkUSBCat true (_aio_recv_block_list (usbcat sys)))
             (in_flight sys ++ _aio_recv_block_list (usbcat sys)) (memory sys).
Proof.
  unfold step. cbn [handler]. intros Hstep.
  pose proof (onEnable_returns env (usbcat sys)) as He.
  pose proof (disable_frame env (usbcat sys)) as (_ & _ & Hsub & _).
  destruct (onEnable env (usbcat sys)) as [[o self] log].
  unfold outcome_of, state_of, log_of in He, Hsub |- *; cbn [fst snd] in He |- *.
  injection Hstep as -> <-. split; [reflexivity|].
  destruct (He eq_refl) as (-> & ->). cbn [submitted].
  rewrite submitted_app, Hsub. cbn [submitted app]. by rewrite app_nil_r.
Qed.

(** C4, as stated, fails: a stray enable, processed while the function is
    enabled and its two blocks are in flight, requests their cancellation
    and submits them at once, without waiting for them to complete; when
    the handler returns each block is in flight twice. *)
Lemma stray_enable_double_submits :
  run [(quiet, ev_enable); (quiet, ev_enable)] init_system =
    (Return tt,
     mkSystem (mkUSBCat true [block0; block1]) [block0; block1; block0; block1]
       (memory init_system))
  ∧ ¬ NoDup (in_flight
               (snd (run [(quiet, ev_enable); (quiet, ev_enable)] init_system))).
Proof.
  assert (Hrun : run [(quiet, ev_enable); (quiet, ev_enable)] init_system =
    (Return tt,
     mkSystem (mkUSBCat true [block0; block1]) [block0; block1; block0; block1]
       (memory init_system))) by reflexivity.
  split; [exact Hrun|]. rewrite Hrun. cbn [snd in_flight].
  intros Hnd. apply NoDup_cons in Hnd as [Hnotin _].
  apply Hnotin. right. left.
Qed.

(** C4, amended: an [onEnable] that returns has first run [_disable], which
    requests the cancellation of every slot of the pool when the object was
    enabled (none otherwise) and submits nothing, has then submitted the
    whole pool in one call, the only submission of the handler, and has
    last marked the object enabled, its pool and the buffers unchanged.  It
    waits for no completion: the blocks that were in flight still are, and
    the whole pool is in flight after them.  So no block is in flight twice
    exactly when none was before, no block of the pool was in flight, and
    the pool has no repetition. *)
Theorem onEnable_disables_then_submits env sys sys' :
  step env ev_enable sys = (Return tt, sys') →
  log_of (onEnable env (usbcat sys)) =
    Trace T_onEnable :: log_of (_disable env (usbcat sys))
      ++ [Submit (_aio_recv_block_list (usbcat sys)) None]
  ∧ cancelled (log_of (_disable env (usbcat sys))) =
      (if _enabled (usbcat sys) then _aio_recv_block_list (usbcat sys) else [])
  ∧ submissions (log_of (onEnable env (usbcat sys))) =
      [_aio_recv_block_list (usbcat sys)]
  ∧ state_of (_disable env (usbcat sys)) =
      mkUSBCat false (_aio_recv_block_list (usbcat sys))
  ∧ usbcat sys' = mkUSBCat true (_aio_recv_block_list (usbcat sys))
  ∧ memory sys' = memory sys
  ∧ in_flight sys' = in_flight sys ++ _aio_recv_block_list (usbcat sys)
  ∧ (NoDup (in_flight sys') ↔
       NoDup (in_flight sys)
       ∧ (∀ block, block ∈ in_flight sys →
            block ∉ _aio_recv_block_list (usbcat sys))
       ∧ NoDup (_aio_recv_block_list (usbcat sys))).
Proof.
  intros Hstep. destruct (step_enable_returns env sys sys' Hstep) as [Ho ->].
  destruct (onEnable_calls env (usbcat sys) Ho) as (H1 & H2 & H3 & H4 & _).
  cbn [usbcat memory in_flight].
  repeat (split; [assumption || reflexivity|]).
  apply NoDup_app.
Qed.

Lemma onEnable_disables_then_submits_witness :
  log_of (onEnable quiet (mkUSBCat false [block0; block1])) =
    [Trace T_onEnable; Submit [block0; block1] None]
  ∧ in_flight
      (snd (step quiet ev_enable (mkSystem (mkUSBCat false [block0; block1]) [] []))) =
    [block0; block1]
  ∧ NoDup
      (in_flight
         (snd (step quiet ev_enable
                 (mkSystem (mkUSBCat false [block0; block1]) [] [])))).
Proof.
  pose proof (onEnable_disables_then_submits quiet
                (mkSystem (mkUSBCat false [block0; block1]) [] []) _ eq_refl)
    as (Hlog & _ & _ & _ & _ & _ & Hin & Hnd).
  split; [exact Hlog|]. split; [exact Hin|].
  apply Hnd. split; [apply NoDup_nil_2|]. split.
  - intros block Hb. inversion Hb.
  - apply NoDup_cons. split; [|apply NoDup_singleton].
    intros Hb. apply list_elem_of_singleton in Hb. discriminate Hb.
Defined.

(** The flag is assigned after the submission: when [submit] raises, the
    exception leaves [onEnable] with the object disabled. *)
Lemma onEnable_submit_raises env s e :
  outcome_of (_disable env s) = Return tt →
  aio_submit env (_aio_recv_block_list s) = Some e →
  outcome_of (onEnable env s) = Raise e
  ∧ state_of (onEnable env s) = mkUSBCat false (_aio_recv_block_list s).
Proof.
  intros Ho Hs. rewrite onEnable_unfold.
  pose proof (disable_returns env s Ho) as [Hst _].
  destruct (_disable env s) as [[[[]|e'] s1] t1];
    unfold outcome_of, state_of in *; simpl in *; [|discriminate].
  subst s1. simpl. rewrite Hs. split; reflexivity.
Qed.

(** C5: [onUnbind] returns after tracing its name and clearing the flag;
    it makes no call to the AIO context, so no cancellation, and the block
    list is the one it found.  Seen from the whole system, the blocks in
    flight and the buffers are left as they were. *)
Theorem onUnbind_only_clears_flag env s sys :
  onUnbind s =
    (Return tt, mkUSBCat false (_aio_recv_block_list s), [Trace T_onUnbind])
  ∧ filter is_aio_call (log_of (onUnbind s)) = []
  ∧ step env ev_unbind sys =
      (Return tt,
       mkSystem (mkUSBCat false (_aio_recv_block_list (usbcat sys)))
         (in_flight sys) (memory sys)).
Proof.
  repeat split.
  unfold step. simpl. by rewrite app_nil_r.
Qed.

(** C6: disabling an enabled function whose cancellations return or raise
    [OSError] requests the cancellation of every slot of the pool, in
    order, whichever of them fail; each failure is handed to [trace];
    nothing is submitted; the object ends disabled and [_disable], like
    [onDisable], returns instead of raising. *)
Theorem disable_cancels_every_slot env s :
  _enabled s = true →
  (∀ b, b ∈ _aio_recv_block_list s → benign (aio_cancel env b)) →
  outcome_of (_disable env s) = Return tt
  ∧ outcome_of (onDisable env s) = Return tt
  ∧ state_of (_disable env s) = mkUSBCat false (_aio_recv_block_list s)
  ∧ cancelled (log_of (_disable env s)) = _aio_recv_block_list s
  ∧ submissions (log_of (_disable env s)) = []
  ∧ ∀ b exc, b ∈ _aio_recv_block_list s →
      aio_cancel env b = Some (OSError exc) →
      Trace (T_cancelling_raised b exc) ∈ log_of (_disable env s).
Proof.
  intros Hen Hall.
  pose proof (disable_frame env s) as (_ & Hsub & _).
  assert (Ho : outcome_of (_disable env s) = Return tt
               ∧ ∀ b exc, b ∈ _aio_recv_block_list s →
                   aio_cancel env b = Some (OSError exc) →
                   Trace (T_cancelling_raised b exc) ∈ log_of (_disable env s)).
  { rewrite disable_unfold, Hen.
    pose proof (cancel_each_benign env _ s Hall) as (Hr & _ & Ht).
    destruct (cancel_each env (_aio_recv_block_list s) s) as [[[[]|e] s1] t];
      unfold outcome_of, log_of in *; simpl in *; [|discriminate].
    split; [reflexivity|assumption]. }
  destruct Ho as [Ho Ht].
  destruct (disable_returns env s Ho) as [Hst Hc]. rewrite Hen in Hc.
  repeat split; try assumption.
  unfold onDisable, trace, emit, mbind, M_bind. simpl.
  destruct (_disable env s) as [[o s1] t]. exact Ho.
Qed.

Lemma disable_cancels_every_slot_witness :
  log_of (_disable first_cancel_fails (mkUSBCat true [block0; block1])) =
    [Cancel block0 (Some (OSError 22)); Trace (T_cancelling_raised block0 22);
     Cancel block1 None]
  ∧ outcome_of (_disable first_cancel_fails (mkUSBCat true [block0; block1])) =
      Return tt
  ∧ cancelled (log_of (_disable first_cancel_fails (mkUSBCat true [block0; block1])))
      = [block0; block1].
Proof.
  assert (Hall : ∀ b, b ∈ _aio_recv_block_list (mkUSBCat true [block0; block1]) →
                      benign (aio_cancel first_cancel_fails b)).
  { intros b _. simpl. destruct (decide (b = block0)); [right; eauto | by left]. }
  pose proof (disable_cancels_every_slot first_cancel_fails
                (mkUSBCat true [block0; block1]) eq_refl Hall) as (Ho & _ & _ & Hc & _).
  split; [reflexivity|]. split; [exact Ho | exact Hc].
Defined.

End Lifecycle.

(** ** The completion notification *)

Module Notification.
Import USBCat_methods.

(** C7: the first call of [onAIOCompletion] is always the read of the
    eventfd counter; when that read returns a count, the handler traces it
    and then calls [getEvents] with no minimum, no maximum and no timeout,
    whatever the count was: the count is not passed on, so no exact number
    of events is requested.  The object is left as it was. *)
Theorem onAIOCompletion_drains_then_collects env event_count s :
  (∃ rest, log_of (onAIOCompletion env s) = EventfdRead (eventfd_read env) :: rest)
  ∧ log_of (onAIOCompletion
              (mkEnv (aio_submit env) (aio_cancel env) (aio_getEvents env)
                 (Return event_count) (writer env)) s) =
      [EventfdRead (Return event_count);
       Trace (T_eventfd_reports event_count);
       GetEvents None None None (aio_getEvents env)]
  ∧ state_of (onAIOCompletion env s) = s.
Proof.
  unfold onAIOCompletion, call, trace, emit, raise, mbind, M_bind, mret, M_ret,
    log_of, state_of.
  simpl. repeat split.
  - destruct (eventfd_read env) as [n|e]; simpl; [|eauto].
    destruct (aio_getEvents env); simpl; eauto.
  - destruct (aio_getEvents env); reflexivity.
  - destruct (eventfd_read env) as [n|e]; simpl; [|reflexivity].
    destruct (aio_getEvents env); reflexivity.
Qed.

End Notification.

(** ** The dispatcher's wait *)

Module Dispatcher.

Lemma noIntrEpoll_interrupted later :
  noIntrEpoll (interrupted :: later) = noIntrEpoll later
  ∧ noIntrEpoll_calls (interrupted :: later) = S (noIntrEpoll_calls later).
Proof.
  unfold interrupted. cbn [noIntrEpoll noIntrEpoll_calls].
  rewrite bool_decide_eq_false_2 by (intros H; by apply H). split; reflexivity.
Qed.

Lemma noIntrEpoll_other (answer : poll_answer) later :
  answer ≠ interrupted →
  noIntrEpoll (answer :: later) = Some (answer, later)
  ∧ noIntrEpoll_calls (answer :: later) = 1%nat.
Proof.
  intros Hne. destruct answer as [ready|[]];
    cbn [noIntrEpoll noIntrEpoll_calls]; try (split; reflexivity).
  destruct (decide (errno = EINTR)) as [->|Herr].
  - exfalso. by apply Hne.
  - rewrite bool_decide_eq_true_2 by assumption. split; reflexivity.
Qed.

(** C8: whatever the number [n] of consecutive interruptions (IOError with
    errno EINTR), [noIntrEpoll] calls [epoll.poll()] again after each of
    them and ends with the first other answer: the ready list is returned,
    an IOError with another errno (or any other exception) is raised again.
    It takes [n + 1] calls.  While only interruptions arrive the loop has
    produced neither a result nor an error. *)
Theorem noIntrEpoll_retries_on_EINTR (n : nat) (answer : poll_answer) later :
  answer ≠ interrupted →
  noIntrEpoll (replicate n interrupted ++ answer :: later) = Some (answer, later)
  ∧ noIntrEpoll_calls (replicate n interrupted ++ answer :: later) = S n
  ∧ noIntrEpoll (replicate n interrupted) = None.
Proof.
  intros Hne. induction n as [|n (IH1 & IH2 & IH3)].
  - destruct (noIntrEpoll_other answer later Hne) as [H1 H2].
    repeat split; assumption.
  - cbn [replicate app].
    destruct (noIntrEpoll_interrupted (replicate n interrupted ++ answer :: later))
      as [-> ->].
    destruct (noIntrEpoll_interrupted (replicate n interrupted)) as [-> _].
    repeat split; [assumption | by rewrite IH2 | assumption].
Qed.

Lemma noIntrEpoll_retries_on_EINTR_witness :
  noIntrEpoll [interrupted; interrupted; interrupted; Raise (IOError 5);
               Return [(3, 1)]] =
    Some (Raise (IOError 5), [Return [(3, 1)]]).
Proof.
  assert (H : Raise (IOError 5) ≠ interrupted) by (unfold interrupted, EINTR; congruence).
  exact (proj1 (noIntrEpoll_retries_on_EINTR 3 (Raise (IOError 5))
                  [Return [(3, 1)]] H)).
Defined.

End Dispatcher.

(** ** The function and its context over a run of events *)

Module Accounting.
Import USBCat_methods.

Lemma onReceived_submitted env store block res res2 s :
  submitted (log_of (_onReceived env store block res res2 s)) =
  if bool_decide (res ≠ - ESHUTDOWN)
  then match aio_submit env [block] with None => [block] | Some _ => [] end
  else [].
Proof.
  rewrite Completion.onReceived_log, submitted_app.
  destruct (bool_decide (res ≠ - ESHUTDOWN)), (bool_decide (res < 0));
    destruct (aio_submit env [block]); simpl; try reflexivity.
  all: destruct (buffer_list block !! 0%nat); reflexivity.
Qed.


Lemma onDisable_unfold env s :
  onDisable env s =
  match _disable env s with
  | (o, s1, t) => (o, s1, Trace T_onDisable :: t)
  end.
Proof.
  unfold onDisable, trace, emit, mbind, M_bind. simpl.
  destruct (_disable env s) as [[o s1] t]; reflexivity.
Qed.

(** No handler ever rebinds the block list. *)
Lemma handler_pool env store ev s :
  _aio_recv_block_list (state_of (handler env store ev s)) = _aio_recv_block_list s.
Proof.
  destruct ev; simpl; try reflexivity.
  - rewrite Lifecycle.onEnable_unfold.
    pose proof (Lifecycle.disable_frame env s) as [Hp _].
    destruct (_disable env s) as [[[[]|e] s1] t1];
      unfold state_of in *; simpl in *; [|assumption].
    destruct (aio_submit env (_aio_recv_block_list s1)); assumption.
  - rewrite onDisable_unfold.
    pose proof (Lifecycle.disable_frame env s) as [Hp _].
    destruct (_disable env s) as [[o s1] t]. exact Hp.
  - by rewrite Completion.onReceived_state.
Qed.

Lemma fill_length data buf : length (fill data buf) = length buf.
Proof.
  unfold fill. rewrite length_take, length_app, length_drop. lia.
Qed.

(** What [__init__] builds: two blocks, each around its own zeroed
    bytearray of BUF_SIZE bytes. *)
Lemma init_unfold :
  __init__ =
  (mkUSBCat false [block0; block1],
   [replicate BUF_SIZE Byte.x00; replicate BUF_SIZE Byte.x00]).
Proof. reflexivity. Qed.

Lemma init_well_formed : well_formed init_system.
Proof.
  unfold well_formed, init_system. rewrite init_unfold.
  cbn [fst snd usbcat memory _aio_recv_block_list].
  split; [reflexivity|]. split; [reflexivity|].
  apply Forall_cons; split; [apply length_replicate|].
  apply Forall_cons; split; [apply length_replicate|].
  apply Forall_nil_2.
Qed.

Lemma step_well_formed env ev sys :
  well_formed sys → well_formed (snd (step env ev sys)).
Proof.
  intros (Hp & Hl & Hf). unfold step.
  pose proof (handler_pool env
    (match ev with
     | ev_kernel_write a data => alter (fill data) a (memory sys)
     | _ => memory sys
     end) ev (usbcat sys)) as Hh.
  destruct (handler env _ ev (usbcat sys)) as [[o self] log].
  unfold state_of in Hh; cbn [fst snd] in Hh.
  unfold well_formed. cbn [fst snd usbcat memory].
  split; [by rewrite Hh|].
  destruct ev; try (split; assumption).
  split; [by rewrite length_alter|].
  apply Forall_alter; [assumption|].
  intros buf _ Hb. by rewrite fill_length.
Qed.

Lemma run_well_formed evs sys :
  well_formed sys → well_formed (snd (run evs sys)).
Proof.
  revert sys. induction evs as [|[env ev] evs IH]; intros sys Hwf; [assumption|].
  simpl. pose proof (step_well_formed env ev sys Hwf) as Hs.
  destruct (step env ev sys) as [[[]|e] sys']; simpl in *; [by apply IH|assumption].
Qed.

Lemma reap_length block l :
  block ∈ l → length (reap block l) = pred (length l).
Proof.
  induction l as [|b l IH]; intros Hin; [inversion Hin|].
  simpl. destruct (decide (b = block)) as [|Hne]; [reflexivity|].
  apply elem_of_cons in Hin as [->|Hin]; [by exfalso; apply Hne|].
  simpl. rewrite (IH Hin). destruct l; [inversion Hin|reflexivity].
Qed.

(** What the delivery of one completion does to the system. *)
Lemma step_completion env block res res2 sys :
  step env (ev_completion block res res2) sys =
  (outcome_of (_onReceived env (memory sys) block res res2 (usbcat sys)),
   mkSystem (usbcat sys)
     (reap block (in_flight sys) ++
      submitted (log_of (_onReceived env (memory sys) block res res2 (usbcat sys))))
     (memory sys)).
Proof.
  unfold step. simpl.
  pose proof (Completion.onReceived_state env (memory sys) block res res2 (usbcat sys)) as Hs.
  destruct (_onReceived env (memory sys) block res res2 (usbcat sys)) as [[o self] log].
  unfold state_of in Hs; simpl in Hs. by subst self.
Qed.












(** Completions never raise the in-flight count and never touch the flag. *)
Lemma drain_never_refills evs sys :
  drain evs sys →
  _enabled (usbcat (snd (run evs sys))) = _enabled (usbcat sys)
  ∧ (length (in_flight (snd (run evs sys))) ≤ length (in_flight sys))%nat.
Proof.
  revert sys. induction evs as [|[env ev] evs IH]; intros sys Hd; [split; done|].
  destruct ev as [| | | |block res res2|]; try (by destruct Hd).
  destruct Hd as [Hin Hd]. cbn [run].
  assert (Hstep : _enabled (usbcat (snd (step env (ev_completion block res res2) sys)))
                    = _enabled (usbcat sys)
                  ∧ (length (in_flight (snd (step env (ev_completion block res res2) sys)))
                     ≤ length (in_flight sys))%nat).
  { rewrite step_completion. simpl. split; [reflexivity|].
    rewrite length_app, (reap_length _ _ Hin), onReceived_submitted.
    destruct (in_flight sys); [inversion Hin|].
    case_bool_decide; [destruct (aio_submit env [block])|]; simpl; lia. }
  destruct (IH _ Hd) as [IHe IHl].
  destruct (step env (ev_completion block res res2) sys) as [[[]|e] sys'];
    simpl in *; [|assumption].
  destruct Hstep as [He Hl]. split; [congruence|lia].
Qed.

(** The hypothesis of the amended C9 cannot be dropped: were the first
    block aborted without any disable or unbind signal, the function would
    stay enabled with one block in flight, and no drain of completions
    would bring the count back to PENDING_READ_COUNT. *)
Remark unannounced_abort_does_not_converge :
  run [(quiet, ev_enable); (quiet, ev_completion block0 (- ESHUTDOWN) 0)]
      init_system =
    (Return tt,
     mkSystem (mkUSBCat true [block0; block1]) [block1] (memory init_system))
  ∧ ¬ announced [(quiet, ev_enable); (quiet, ev_completion block0 (- ESHUTDOWN) 0)]
        init_system
  ∧ ¬ converges
        (mkSystem (mkUSBCat true [block0; block1]) [block1] (memory init_system)).
Proof.
  split; [reflexivity|]. split.
  - cbn [announced is_shutdown_abort]. intros (_ & (Hex & _)).
    specialize (Hex (bool_decide_eq_true_2 _ eq_refl) eq_refl).
    inversion Hex.
  - intros (evs & Hd & Hs).
    destruct (drain_never_refills evs _ Hd) as [He Hl].
    unfold settled in Hs. rewrite He in Hs.
    cbn [usbcat in_flight _enabled length] in Hs, Hl.
    unfold PENDING_READ_COUNT in Hs. lia.
Qed.

End Accounting.

(** ** The buffers *)

Module Buffers.
Import USBCat_methods.

(** In a well-formed system every block of the pool refers to exactly one
    bytearray, which is in the store and has BUF_SIZE bytes. *)
Lemma pool_buffer sys block :
  well_formed sys →
  block ∈ _aio_recv_block_list (usbcat sys) →
  ∃ a buf, buffer_list block = [a]
           ∧ memory sys !! a = Some buf
           ∧ length buf = BUF_SIZE.
Proof.
  intros (Hpool & Hlen & Hall) Hin.
  rewrite Hpool, Accounting.init_unfold in Hin. cbn [fst _aio_recv_block_list] in Hin.
  assert (Ha : ∃ a, buffer_list block = [a] ∧ (a < PENDING_READ_COUNT)%nat).
  { apply elem_of_cons in Hin as [->|Hin];
      [exists 0%nat; split; [reflexivity|unfold PENDING_READ_COUNT; lia]|].
    apply elem_of_cons in Hin as [->|Hin];
      [exists 1%nat; split; [reflexivity|unfold PENDING_READ_COUNT; lia]|].
    inversion Hin. }
  destruct Ha as (a & Hb & Hlt).
  destruct (lookup_lt_is_Some_2 (memory sys) a) as [buf Hbuf]; [by rewrite Hlen|].
  exists a, buf. split; [assumption|]. split; [assumption|].
  rewrite Forall_forall in Hall. apply Hall. by eapply list_elem_of_lookup_2.
Qed.

(** C10: in any system reached from construction, when a completion with a
    non-negative result [res] is delivered for a block of the pool, the
    block refers to one bytearray of the store, of BUF_SIZE bytes; what the
    handler passes to the sink is the slice [[:res]] of that bytearray, once
    if the resubmission returned and not at all if it raised, so at most
    BUF_SIZE bytes, and exactly [res] of them when [res] does not exceed
    BUF_SIZE; the block resubmitted is the block itself, with the same
    buffer reference, and the pool is still the one [__init__] built. *)
Theorem forwarded_payload evs sys env block res res2 :
  run evs init_system = (Return tt, sys) →
  block ∈ _aio_recv_block_list (usbcat sys) →
  0 ≤ res →
  ∃ a buf,
    buffer_list block = [a]
    ∧ memory sys !! a = Some buf
    ∧ length buf = BUF_SIZE
    ∧ payloads (log_of (_onReceived env (memory sys) block res res2 (usbcat sys))) =
        match aio_submit env [block] with
        | None => [take (Z.to_nat res) buf]
        | Some _ => []
        end
    ∧ (length (take (Z.to_nat res) buf) ≤ BUF_SIZE)%nat
    ∧ ((Z.to_nat res ≤ BUF_SIZE)%nat →
       length (take (Z.to_nat res) buf) = Z.to_nat res)
    ∧ submissions (log_of (_onReceived env (memory sys) block res res2 (usbcat sys))) =
        [[block]]
    ∧ state_of (_onReceived env (memory sys) block res res2 (usbcat sys)) = usbcat sys
    ∧ _aio_recv_block_list (usbcat sys) = _aio_recv_block_list (fst __init__).
Proof.
  intros Hrun Hin Hres.
  assert (Hwf : well_formed sys).
  { pose proof (Accounting.run_well_formed evs init_system Accounting.init_well_formed) as H.
    by rewrite Hrun in H. }
  destruct (pool_buffer sys block Hwf Hin) as (a & buf & Hb & Hbuf & Hlen).
  exists a, buf.
  assert (Hne : res ≠ - ESHUTDOWN) by (unfold ESHUTDOWN; lia).
  pose proof (Completion.onReceived_submissions env (memory sys) block
                res res2 (usbcat sys)) as Hsub.
  pose proof (Completion.onReceived_state env (memory sys) block
                res res2 (usbcat sys)) as Hst.
  rewrite bool_decide_eq_false_2 in Hsub by assumption.
  repeat split; try assumption.
  - rewrite Completion.onReceived_log, payloads_app.
    rewrite (bool_decide_eq_true_2 _ Hne).
    rewrite (bool_decide_eq_false_2 (res < 0)) by lia.
    rewrite Hb. cbn [lookup list_lookup].
    rewrite (list_lookup_total_correct _ _ _ Hbuf).
    destruct (aio_submit env [block]) as [e|].
    + rewrite bool_decide_eq_true_2 by eauto. reflexivity.
    + rewrite bool_decide_eq_false_2 by (intros [x Hx]; discriminate). reflexivity.
  - rewrite length_take, Hlen. lia.
  - intros Hle. rewrite length_take, Hlen. lia.
  - apply Hwf.
Qed.

Lemma forwarded_payload_witness :
  ∃ a buf,
    buffer_list block1 = [a]
    ∧ memory init_system !! a = Some buf
    ∧ length buf = BUF_SIZE
    ∧ payloads
        (log_of (_onReceived quiet (memory init_system) block1 2 0
                   (mkUSBCat true [block0; block1]))) =
        [take (Z.to_nat 2) buf].
Proof.
  assert (Hrun : run [(quiet, ev_enable)] init_system =
    (Return tt,
     mkSystem (mkUSBCat true [block0; block1]) [block0; block1] (memory init_system)))
    by reflexivity.
  assert (Hin : block1 ∈ [block0; block1]) by (right; left).
  assert (Hres : 0 ≤ 2) by lia.
  destruct (forwarded_payload [(quiet, ev_enable)] _ quiet block1 2 0 Hrun Hin Hres)
    as (a & buf & H1 & H2 & H3 & H4 & _).
  exists a, buf. repeat split; assumption.
Defined.

End Buffers.

(** * Further properties of the file *)

(** ** Construction *)

Module Construction.
Import USBCat_methods.

(** The block that [__init__] builds around the bytearray at address [a]. *)
Lemma make_blocks_unfold n to_host store :
  make_blocks n to_host store =
  (map (fun i => mkAIOBlock (length store + i) AIOBLOCK_MODE_READ to_host
                   [(length store + i)%nat] 0) (seq 0 n),
   store ++ replicate n (replicate BUF_SIZE Byte.x00)).
Proof.
  revert store. induction n as [|n IH]; intros store.
  - cbn [make_blocks seq map replicate]. by rewrite app_nil_r.
  - cbn [make_blocks]. rewrite IH. cbn [seq map replicate].
    rewrite Nat.add_0_r, <- (app_assoc store [_]). cbn [app].
    f_equal. f_equal.
    rewrite <- seq_shift, map_map. apply map_ext. intros i.
    rewrite length_app. cbn [length].
    replace (length store + 1 + i)%nat with (length store + S i)%nat by lia.
    reflexivity.
Qed.

(** X1: whatever the number of blocks asked for and whatever the store
    holds already, construction keeps the objects of the store, allocates
    one zeroed bytearray of BUF_SIZE bytes per block, and gives each block,
    a read on the endpoint asked for at offset 0, exactly one buffer, which
    is one of the new bytearrays; no two blocks share a buffer. *)
Theorem make_blocks_gives_each_block_its_own_buffer n to_host store :
  length (fst (make_blocks n to_host store)) = n
  ∧ snd (make_blocks n to_host store) =
      store ++ replicate n (replicate BUF_SIZE Byte.x00)
  ∧ NoDup (fst (make_blocks n to_host store) ≫= buffer_list)
  ∧ Forall (fun block =>
              mode block = AIOBLOCK_MODE_READ
              ∧ target_file block = to_host
              ∧ offset block = 0
              ∧ ∃ a, buffer_list block = [a]
                     ∧ (length store ≤ a)%nat
                     ∧ snd (make_blocks n to_host store) !! a =
                         Some (replicate BUF_SIZE Byte.x00))
           (fst (make_blocks n to_host store)).
Proof.
  rewrite make_blocks_unfold. cbn [fst snd].
  split; [by rewrite length_map, length_seq|]. split; [reflexivity|]. split.
  - assert (Hb : ∀ m k,
      map (fun i => mkAIOBlock (length store + i) AIOBLOCK_MODE_READ to_host
                      [(length store + i)%nat] 0) (seq k m) ≫= buffer_list
      = map (fun i => (length store + i)%nat) (seq k m)).
    { intros m. induction m as [|m IHm]; intros k; [reflexivity|].
      cbn [seq map]. rewrite bind_cons, IHm. reflexivity. }
    rewrite Hb. apply NoDup_fmap_2; [intros i j; lia|]. apply NoDup_seq.
  - apply Forall_forall. intros block Hin.
    apply list_elem_of_In, in_map_iff in Hin as (i & <- & Hi).
    apply in_seq in Hi. cbn [mode target_file offset buffer_list].
    repeat split. exists (length store + i)%nat.
    split; [reflexivity|]. split; [apply Nat.le_add_r|].
    rewrite lookup_app_r by apply Nat.le_add_r.
    rewrite Nat.add_sub'.
    apply lookup_replicate_2. lia.
Qed.

End Construction.

(** ** What the handlers do when a collaborator fails *)

Module Failures.
Import USBCat_methods.

(** The loop of [_disable] along a list whose first blocks answer benignly. *)
Lemma cancel_each_app_benign env pre rest s :
  (∀ b, b ∈ pre → benign (aio_cancel env b)) →
  ∃ t, cancelled t = pre
       ∧ cancel_each env (pre ++ rest) s =
           (outcome_of (cancel_each env rest s),
            state_of (cancel_each env rest s),
            t ++ log_of (cancel_each env rest s)).
Proof.
  induction pre as [|b pre IH]; intros Hall.
  - exists []. split; [reflexivity|]. cbn [app].
    destruct (cancel_each env rest s) as [[o s'] t]. reflexivity.
  - destruct IH as (t & Ht & Heq).
    { intros x Hx. apply Hall. by right. }
    cbn [app]. rewrite Lifecycle.cancel_each_cons, Heq.
    destruct (Hall b ltac:(by left)) as [-> | [exc ->]].
    + exists (Cancel b None :: t). split; [by rewrite <- Ht|reflexivity].
    + exists (Cancel b (Some (OSError exc)) :: Trace (T_cancelling_raised b exc) :: t).
      split; [by rewrite <- Ht|reflexivity].
Qed.

(** X2: [_disable] catches [OSError] only.  When the cancellation of a
    block raises anything else, after blocks whose cancellation returned
    or raised [OSError], the exception leaves [_disable]; the blocks that
    follow get no cancellation request and the object is still marked
    enabled. *)
Theorem disable_stops_at_foreign_exception env pre block post e :
  (∀ b, b ∈ pre → benign (aio_cancel env b)) →
  aio_cancel env block = Some e →
  (∀ exc, e ≠ OSError exc) →
  outcome_of (_disable env (mkUSBCat true (pre ++ block :: post))) = Raise e
  ∧ state_of (_disable env (mkUSBCat true (pre ++ block :: post))) =
      mkUSBCat true (pre ++ block :: post)
  ∧ cancelled (log_of (_disable env (mkUSBCat true (pre ++ block :: post)))) =
      pre ++ [block].
Proof.
  intros Hall He Hforeign.
  rewrite Lifecycle.disable_unfold. cbn [_enabled _aio_recv_block_list].
  destruct (cancel_each_app_benign env pre (block :: post)
              (mkUSBCat true (pre ++ block :: post)) Hall) as (t & Ht & ->).
  rewrite Lifecycle.cancel_each_cons, He.
  destruct e as [exc| | | | |]; [by destruct (Hforeign exc)| | | | |];
    unfold outcome_of, state_of, log_of; cbn [fst snd];
    (split; [reflexivity|]); (split; [reflexivity|]);
    rewrite cancelled_app, Ht; reflexivity.
Qed.

(** A context in which cancelling the second block raises an IOError. *)
Lemma disable_stops_at_foreign_exception_witness :
  _disable (mkEnv (fun _ => None)
              (fun b => if decide (b = block1) then Some (IOError 5) else None)
              None (Return 1) (fun _ => None))
    (mkUSBCat true ([block0] ++ block1 :: [block0])) =
  (Raise (IOError 5), mkUSBCat true [block0; block1; block0],
   [Cancel block0 None; Cancel block1 (Some (IOError 5))])
  ∧ cancelled
      (log_of (_disable (mkEnv (fun _ => None)
                 (fun b => if decide (b = block1) then Some (IOError 5) else None)
                 None (Return 1) (fun _ => None))
         (mkUSBCat true ([block0] ++ block1 :: [block0])))) = [block0] ++ [block1].
Proof.
  split; [reflexivity|].
  refine (proj2 (proj2 (disable_stops_at_foreign_exception
    (mkEnv (fun _ => None)
       (fun b => if decide (b = block1) then Some (IOError 5) else None)
       None (Return 1) (fun _ => None))
    [block0] block1 [block0] (IOError 5) _ eq_refl _))).
  - intros b Hb. apply list_elem_of_singleton in Hb as ->. by left.
  - intros exc. discriminate.
Defined.

(** X3: when [_disable] has returned and the submission of the pool then
    raises, the exception leaves [onEnable] after the cancellations and the
    failed call, the object is marked disabled whatever it was before, and
    no block has been put in flight. *)
Theorem onEnable_failed_submit_leaves_disabled env sys e :
  outcome_of (_disable env (usbcat sys)) = Return tt →
  aio_submit env (_aio_recv_block_list (usbcat sys)) = Some e →
  onEnable env (usbcat sys) =
    (Raise e, mkUSBCat false (_aio_recv_block_list (usbcat sys)),
     Trace T_onEnable :: log_of (_disable env (usbcat sys))
       ++ [Submit (_aio_recv_block_list (usbcat sys)) (Some e)])
  ∧ step env ev_enable sys =
      (Raise e,
       mkSystem (mkUSBCat false (_aio_recv_block_list (usbcat sys)))
         (in_flight sys) (memory sys)).
Proof.
  intros Ho Hs.
  assert (Heq : onEnable env (usbcat sys) =
    (Raise e, mkUSBCat false (_aio_recv_block_list (usbcat sys)),
     Trace T_onEnable :: log_of (_disable env (usbcat sys))
       ++ [Submit (_aio_recv_block_list (usbcat sys)) (Some e)])).
  { rewrite Lifecycle.onEnable_unfold.
    pose proof (Lifecycle.disable_returns env (usbcat sys) Ho) as [Hst _].
    destruct (_disable env (usbcat sys)) as [[[[]|e'] s1] t1];
      unfold outcome_of, state_of, log_of in *; cbn [fst snd] in *; [|discriminate].
    subst s1. cbn [_aio_recv_block_list]. by rewrite Hs. }
  split; [exact Heq|].
  unfold step. cbn [handler]. rewrite Heq. f_equal. f_equal.
  pose proof (Lifecycle.disable_frame env (usbcat sys)) as (_ & _ & Hsub & _).
  cbn [submitted]. rewrite submitted_app, Hsub. cbn [submitted app].
  apply app_nil_r.
Qed.

Lemma onEnable_failed_submit_leaves_disabled_witness :
  step (mkEnv (fun _ => Some (OSError 108)) (fun _ => None) None (Return 1)
          (fun _ => None))
       ev_enable (mkSystem (mkUSBCat true [block0; block1]) [block0; block1] []) =
  (Raise (OSError 108),
   mkSystem (mkUSBCat false [block0; block1]) [block0; block1] []).
Proof.
  exact (proj2 (onEnable_failed_submit_leaves_disabled
    (mkEnv (fun _ => Some (OSError 108)) (fun _ => None) None (Return 1)
       (fun _ => None))
    (mkSystem (mkUSBCat true [block0; block1]) [block0; block1] [])
    (OSError 108) eq_refl eq_refl)).
Defined.

(** X4: when the resubmission raises, the exception leaves [_onReceived]
    at once: the completion is not traced and the bytes received are not
    given to the sink. *)
Theorem onReceived_failed_resubmission_drops_payload env store block res res2 s e :
  res ≠ - ESHUTDOWN →
  aio_submit env [block] = Some e →
  _onReceived env store block res res2 s =
    (Raise e, s, [Submit [block] (Some e)]).
Proof.
  intros Hres Hs.
  unfold _onReceived, call, trace, emit, raise, mbind, M_bind, mret, M_ret.
  rewrite (bool_decide_eq_true_2 _ Hres), Hs. reflexivity.
Qed.

Lemma onReceived_failed_resubmission_drops_payload_witness :
  payloads
    (log_of (_onReceived
               (mkEnv (fun _ => Some (OSError 11)) (fun _ => None) None (Return 1)
                  (fun _ => None))
               [[Byte.x41; Byte.x42]; []] block0 2 0 (mkUSBCat true [block0; block1])))
  = [].
Proof.
  assert (H : 2 ≠ - ESHUTDOWN) by (unfold ESHUTDOWN; lia).
  by rewrite (onReceived_failed_resubmission_drops_payload
    (mkEnv (fun _ => Some (OSError 11)) (fun _ => None) None (Return 1)
       (fun _ => None))
    [[Byte.x41; Byte.x42]; []] block0 2 0 (mkUSBCat true [block0; block1])
    (OSError 11) H eq_refl).
Defined.

(** X5: the completion handler never looks at the object: its outcome and
    its calls are the same whether the function is enabled or not and
    whatever its pool, so a completion that arrives after a disable is
    resubmitted like any other. *)
Theorem onReceived_ignores_the_object env store block res res2 s s' :
  outcome_of (_onReceived env store block res res2 s) =
    outcome_of (_onReceived env store block res res2 s')
  ∧ log_of (_onReceived env store block res res2 s) =
      log_of (_onReceived env store block res res2 s').
Proof.
  split; [|by rewrite !Completion.onReceived_log].
  unfold _onReceived, outcome_of, call, trace, emit, raise, mbind, M_bind, mret, M_ret.
  destruct (bool_decide (res ≠ - ESHUTDOWN)), (bool_decide (res < 0));
    destruct (aio_submit env [block]); simpl; try reflexivity.
  all: destruct (buffer_list block !! 0%nat); simpl; try reflexivity.
  all: destruct (writer env _); reflexivity.
Qed.

(** X6: [onAIOCompletion] raises exactly when the read of the eventfd
    raises, in which case [getEvents] is not called, or when that read
    returns and [getEvents] raises. *)
Theorem onAIOCompletion_failure_paths env s e :
  (outcome_of (onAIOCompletion env s) = Raise e ↔
     eventfd_read env = Raise e
     ∨ (∃ n, eventfd_read env = Return n) ∧ aio_getEvents env = Some e)
  ∧ (∀ e', eventfd_read env = Raise e' →
       log_of (onAIOCompletion env s) = [EventfdRead (Raise e')]).
Proof.
  unfold onAIOCompletion, outcome_of, log_of, call, trace, emit, raise,
    mbind, M_bind, mret, M_ret.
  destruct (eventfd_read env) as [n|e0]; destruct (aio_getEvents env) as [e1|];
    simpl; (split; [split|]).
  - intros Heq. right. split; [eauto|congruence].
  - intros [Hd | [_ Heq]]; [discriminate|congruence].
  - intros e' Hd. discriminate.
  - intros Hd. discriminate.
  - intros [Hd | [_ Hd]]; discriminate.
  - intros e' Hd. discriminate.
  - intros Heq. left. congruence.
  - intros [Heq | [[n Hd] _]]; [congruence|discriminate].
  - intros e' Heq. congruence.
  - intros Heq. left. congruence.
  - intros [Heq | [[n Hd] _]]; [congruence|discriminate].
  - intros e' Heq. congruence.
Qed.

(** X7: a submission made by [onEnable] adds the whole pool to the blocks
    in flight without waiting for anything: when the handler returns, the
    blocks that were in flight still are, the cancelled ones included, and
    every block of the pool is in flight once more. *)
Theorem enable_resubmits_in_flight env sys sys' :
  step env ev_enable sys = (Return tt, sys') →
  in_flight sys' = in_flight sys ++ _aio_recv_block_list (usbcat sys)
  ∧ usbcat sys' = mkUSBCat true (_aio_recv_block_list (usbcat sys))
  ∧ memory sys' = memory sys.
Proof.
  unfold step. cbn [handler]. intros Hstep.
  pose proof (Lifecycle.onEnable_returns env (usbcat sys)) as He.
  pose proof (Lifecycle.disable_frame env (usbcat sys)) as (_ & _ & Hsub & _).
  destruct (onEnable env (usbcat sys)) as [[o self] log].
  unfold outcome_of, state_of, log_of in He, Hsub; cbn [fst snd] in He.
  injection Hstep as -> <-.
  destruct (He eq_refl) as (-> & ->). cbn [in_flight usbcat memory submitted].
  rewrite submitted_app, Hsub. cbn [submitted app]. by rewrite app_nil_r.
Qed.

Lemma enable_resubmits_in_flight_witness :
  in_flight
    (snd (step quiet ev_enable
            (mkSystem (mkUSBCat true [block0; block1]) [block0; block1] []))) =
  [block0; block1; block0; block1].
Proof.
  exact (proj1 (enable_resubmits_in_flight quiet
    (mkSystem (mkUSBCat true [block0; block1]) [block0; block1] []) _ eq_refl)).
Defined.

End Failures.

(** ** Closing the function *)

Module Teardown.
Import USBCat_methods.

Lemma method_calls_fmap (t : list action) : method_calls (Method <$> t) = t.
Proof. induction t as [|a t IH]; [reflexivity|]. cbn. by rewrite IH. Qed.

Lemma method_calls_app (l1 l2 : list io) :
  method_calls (l1 ++ l2) = method_calls l1 ++ method_calls l2.
Proof.
  induction l1 as [|a l1 IH]; [reflexivity|].
  destruct a; cbn; rewrite IH; reflexivity.
Qed.

Lemma close_unfold env context_close function_close s :
  close env context_close function_close s =
  match _disable env s with
  | (Raise e, s1, t) => (Raise e, s1, Method <$> t)
  | (Return _, s1, t) =>
      match context_close with
      | Some e => (Raise e, s1, (Method <$> t) ++ [ContextClose (Some e)])
      | None =>
          (match function_close with Some e => Raise e | None => Return tt end,
           s1,
           (Method <$> t) ++ [ContextClose None; FunctionClose function_close])
      end
  end.
Proof.
  unfold close, lift, pcall, pemit, praise, mbind, P_bind, mret, P_ret.
  destruct (_disable env s) as [[[[]|e] s1] t]; [|reflexivity].
  destruct context_close as [e|]; [reflexivity|].
  destruct function_close as [e|]; reflexivity.
Qed.

(** X8: a [close] in which nothing raises first runs [_disable], so that
    every block of the pool gets a cancellation request when the function
    was enabled and none otherwise, then closes the AIO context, then the
    base class; it submits nothing and leaves the object disabled. *)
Theorem close_disables_then_releases env s :
  outcome_of (_disable env s) = Return tt →
  close env None None s =
    (Return tt, mkUSBCat false (_aio_recv_block_list s),
     (Method <$> log_of (_disable env s)) ++ [ContextClose None; FunctionClose None])
  ∧ cancelled (method_calls (snd (close env None None s))) =
      (if _enabled s then _aio_recv_block_list s else [])
  ∧ submissions (method_calls (snd (close env None None s))) = [].
Proof.
  intros Ho. rewrite close_unfold.
  destruct (Lifecycle.disable_returns env s Ho) as [Hst Hc].
  pose proof (Lifecycle.disable_frame env s) as (_ & Hsub & _).
  destruct (_disable env s) as [[[[]|e] s1] t];
    unfold outcome_of, state_of, log_of in *; cbn [fst snd] in *; [|discriminate].
  subst s1. split; [reflexivity|].
  rewrite method_calls_app, method_calls_fmap. cbn [method_calls].
  rewrite app_nil_r. split; assumption.
Qed.

Lemma close_disables_then_releases_witness :
  close quiet None None (mkUSBCat true [block0; block1]) =
  (Return tt, mkUSBCat false [block0; block1],
   [Method (Cancel block0 None); Method (Cancel block1 None);
    ContextClose None; FunctionClose None]).
Proof.
  exact (proj1 (close_disables_then_releases quiet
                  (mkUSBCat true [block0; block1]) eq_refl)).
Defined.

(** X9: when [_disable] raises, [close] stops there: neither the AIO
    context nor the base class is closed, and the object is in the state
    in which [_disable] left it; when closing the context raises, the base
    class is not closed. *)
Theorem close_stops_at_first_failure env context_close function_close s e :
  (outcome_of (_disable env s) = Raise e →
   close env context_close function_close s =
     (Raise e, state_of (_disable env s), Method <$> log_of (_disable env s)))
  ∧ (outcome_of (_disable env s) = Return tt → context_close = Some e →
     close env context_close function_close s =
       (Raise e, state_of (_disable env s),
        (Method <$> log_of (_disable env s)) ++ [ContextClose (Some e)])).
Proof.
  rewrite close_unfold.
  destruct (_disable env s) as [[[[]|e0] s1] t];
    unfold outcome_of, state_of, log_of; cbn [fst snd];
    (split; [intros Ho|intros Ho Hc]); try discriminate.
  - subst context_close. reflexivity.
  - congruence.
Qed.

Lemma close_stops_at_first_failure_witness :
  close (mkEnv (fun _ => None)
           (fun b => if decide (b = block0) then Some (IOError 5) else None)
           None (Return 1) (fun _ => None))
        None None (mkUSBCat true [block0; block1]) =
  (Raise (IOError 5), mkUSBCat true [block0; block1],
   [Method (Cancel block0 (Some (IOError 5)))]).
Proof.
  exact (proj1 (close_stops_at_first_failure
    (mkEnv (fun _ => None)
       (fun b => if decide (b = block0) then Some (IOError 5) else None)
       None (Return 1) (fun _ => None))
    None None (mkUSBCat true [block0; block1]) (IOError 5)) eq_refl).
Defined.

(** X10: [close] is not guarded: called again after a [close] that
    returned, it requests no cancellation, the object being disabled, but
    closes the AIO context, and then the base class, once more. *)
Theorem close_again_closes_again env env' s context_close function_close :
  outcome_of (_disable env s) = Return tt →
  close env' context_close function_close
    (snd (fst (close env None None s))) =
  (match context_close with
   | Some e => Raise e
   | None => match function_close with Some e => Raise e | None => Return tt end
   end,
   mkUSBCat false (_aio_recv_block_list s),
   ContextClose context_close ::
     match context_close with
     | Some _ => []
     | None => [FunctionClose function_close]
     end).
Proof.
  intros Ho. rewrite (close_unfold env None None s).
  destruct (Lifecycle.disable_returns env s Ho) as [Hst _].
  destruct (_disable env s) as [[[[]|e] s1] t];
    unfold outcome_of, state_of in *; cbn [fst snd] in *; [|discriminate].
  subst s1. rewrite close_unfold, Lifecycle.disable_unfold.
  cbn [_enabled]. destruct context_close; reflexivity.
Qed.

Lemma close_again_closes_again_witness :
  close quiet None None
    (snd (fst (close quiet None None (mkUSBCat true [block0; block1])))) =
  (Return tt, mkUSBCat false [block0; block1],
   [ContextClose None; FunctionClose None]).
Proof.
  exact (close_again_closes_again quiet quiet (mkUSBCat true [block0; block1])
           None None eq_refl).
Defined.

End Teardown.

(** ** main *)

Module MainLoop.
Import Main.

Lemma interrupted_or_not (a : poll_answer) : a = interrupted ∨ a ≠ interrupted.
Proof.
  destruct a as [ready|[exc|errno| | | |cls]]; try (right; discriminate).
  destruct (decide (errno = EINTR)) as [->|Hne]; [by left|].
  right. unfold interrupted. congruence.
Qed.

Lemma noIntrEpoll_shorter polls answer later :
  noIntrEpoll polls = Some (answer, later) → (length later < length polls)%nat.
Proof.
  induction polls as [|a polls IH]; [discriminate|].
  destruct (interrupted_or_not a) as [->|Hne].
  - destruct (Dispatcher.noIntrEpoll_interrupted polls) as [-> _].
    intros Heq. specialize (IH Heq). cbn [length]. lia.
  - destruct (Dispatcher.noIntrEpoll_other a polls Hne) as [-> _].
    intros [= _ <-]. cbn [length]. lia.
Qed.

Lemma noIntrEpoll_skips_interruptions n polls :
  noIntrEpoll (replicate n interrupted ++ polls) = noIntrEpoll polls.
Proof.
  induction n as [|n IH]; [reflexivity|].
  cbn [replicate app].
  by destruct (Dispatcher.noIntrEpoll_interrupted (replicate n interrupted ++ polls))
    as [-> _].
Qed.

(** X11: [noIntrEpoll] answers with the first answer of [epoll.poll()]
    that is not an interruption, having made one call per interruption
    before it and one for it, and leaves the answers after that one
    untouched; it never answers with an interruption itself, and it is
    still waiting exactly when all it got was interruptions. *)
Theorem noIntrEpoll_answers_first_non_interruption polls :
  match noIntrEpoll polls with
  | Some (answer, later) =>
      ∃ n, polls = replicate n interrupted ++ answer :: later
           ∧ answer ≠ interrupted
           ∧ noIntrEpoll_calls polls = S n
  | None =>
      polls = replicate (length polls) interrupted
      ∧ noIntrEpoll_calls polls = length polls
  end.
Proof.
  induction polls as [|a polls IH]; [split; reflexivity|].
  destruct (interrupted_or_not a) as [->|Hne].
  - destruct (Dispatcher.noIntrEpoll_interrupted polls) as [-> ->].
    destruct (noIntrEpoll polls) as [[answer later]|].
    + destruct IH as (n & -> & Ha & ->). exists (S n). repeat split; assumption.
    + destruct IH as [IH1 ->]. cbn [length replicate].
      split; [by rewrite <- IH1|reflexivity].
  - destruct (Dispatcher.noIntrEpoll_other a polls Hne) as [-> ->].
    exists O. repeat split. assumption.
Qed.

Section over_a_state.
Context {St : Type}.
Implicit Types (event_dispatcher_dict : gmap Z (P St unit)) (s : St).

Lemma dispatch_cons event_dispatcher_dict fd event rest s :
  dispatch event_dispatcher_dict ((fd, event) :: rest) s =
  match (event_dispatcher_dict !! fd : option (P St unit)) with
  | None => (Raise (Exception "KeyError"), s, [TraceEpoll fd event])
  | Some handler =>
      match handler s with
      | (Return _, s1, t1) =>
          match dispatch event_dispatcher_dict rest s1 with
          | (o, s2, t2) => (o, s2, TraceEpoll fd event :: t1 ++ t2)
          end
      | (Raise e, s1, t1) => (Raise e, s1, TraceEpoll fd event :: t1)
      end
  end.
Proof.
  cbn [dispatch]. unfold pemit, praise, mbind, P_bind.
  destruct (event_dispatcher_dict !! fd) as [handler|]; [|reflexivity].
  destruct (handler s) as [[[[]|e] s1] t1]; [|reflexivity].
  destruct (dispatch event_dispatcher_dict rest s1) as [[o s2] t2]. reflexivity.
Qed.

(** The [for] loop over a ready list in two parts. *)
Lemma dispatch_app event_dispatcher_dict ready1 ready2 s :
  dispatch event_dispatcher_dict (ready1 ++ ready2) s =
  match dispatch event_dispatcher_dict ready1 s with
  | (Return _, s1, t1) =>
      match dispatch event_dispatcher_dict ready2 s1 with
      | (o, s2, t2) => (o, s2, t1 ++ t2)
      end
  | (Raise e, s1, t1) => (Raise e, s1, t1)
  end.
Proof.
  revert s. induction ready1 as [|[fd event] ready1 IH]; intros s.
  - cbn [app dispatch]. unfold mret, P_ret.
    by destruct (dispatch event_dispatcher_dict ready2 s) as [[o s2] t2].
  - cbn [app]. rewrite !dispatch_cons.
    destruct (event_dispatcher_dict !! fd) as [handler|]; [|reflexivity].
    destruct (handler s) as [[[[]|e] s1] t1]; [|reflexivity].
    rewrite IH.
    destruct (dispatch event_dispatcher_dict ready1 s1) as [[[[]|e] s2] t2];
      [|reflexivity].
    destruct (dispatch event_dispatcher_dict ready2 s2) as [[o s3] t3].
    by rewrite app_assoc.
Qed.

Lemma main_loop_fuel_enough n m event_dispatcher_dict polls s :
  (length polls < n)%nat → (length polls < m)%nat →
  main_loop_fuel n event_dispatcher_dict polls s =
  main_loop_fuel m event_dispatcher_dict polls s.
Proof.
  revert m polls s. induction n as [|n IH]; intros m polls s Hn Hm; [lia|].
  destruct m as [|m]; [lia|]. cbn [main_loop_fuel].
  destruct (noIntrEpoll polls) as [[[ready|e] later]|] eqn:Hpoll; try reflexivity.
  apply noIntrEpoll_shorter in Hpoll.
  destruct (dispatch event_dispatcher_dict ready s) as [[[[]|e] s'] log];
    [|reflexivity].
  rewrite (IH m later s') by lia. reflexivity.
Qed.

(** One turn of the loop: the wait, the [for] loop over what it returned,
    then the loop again on the answers that are left. *)
Lemma main_loop_unfold event_dispatcher_dict polls s :
  main_loop event_dispatcher_dict polls s =
  match noIntrEpoll polls with
  | None => (None, s, [])
  | Some (Raise e, _) => (Some (Raise e), s, [])
  | Some (Return ready, later) =>
      match dispatch event_dispatcher_dict ready s with
      | (Return _, s', log) =>
          match main_loop event_dispatcher_dict later s' with
          | (o, s'', log') => (o, s'', log ++ log')
          end
      | (Raise e, s', log) => (Some (Raise e), s', log)
      end
  end.
Proof.
  unfold main_loop. cbn [main_loop_fuel].
  destruct (noIntrEpoll polls) as [[[ready|e] later]|] eqn:Hpoll; try reflexivity.
  apply noIntrEpoll_shorter in Hpoll.
  destruct (dispatch event_dispatcher_dict ready s) as [[[[]|e] s'] log];
    [|reflexivity].
  rewrite (main_loop_fuel_enough (length polls) (S (length later))) by lia.
  reflexivity.
Qed.

Lemma main_loop_ends_raising event_dispatcher_dict polls s o s' log :
  main_loop event_dispatcher_dict polls s = (Some o, s', log) → ∃ e, o = Raise e.
Proof.
  unfold main_loop. generalize (S (length polls)) as fuel.
  intros fuel. revert polls s s' log.
  induction fuel as [|fuel IH]; intros polls s s' log; [discriminate|].
  cbn [main_loop_fuel].
  destruct (noIntrEpoll polls) as [[[ready|e] later]|]; try discriminate.
  - destruct (dispatch event_dispatcher_dict ready s) as [[[[]|e] s1] log1].
    + destruct (main_loop_fuel fuel event_dispatcher_dict later s1)
        as [[o2 s2] log2] eqn:Hrec.
      intros [= -> _ _]. by eapply IH.
    + intros [= <- _ _]. eauto.
  - intros [= <- _ _]. eauto.
Qed.

(** X12: interruptions of the wait are invisible to the rest of [main]:
    whatever their number, no handler runs for them, the state is not
    touched, and the loop goes on with the answers that follow. *)
Theorem main_loop_skips_interruptions n event_dispatcher_dict polls s :
  main_loop event_dispatcher_dict (replicate n interrupted ++ polls) s =
  main_loop event_dispatcher_dict polls s.
Proof.
  by rewrite !main_loop_unfold, noIntrEpoll_skips_interruptions.
Qed.

(** X13: the loop has no exit of its own, so [main] leaves it quietly only
    because [KeyboardInterrupt] or [EOFError] was raised inside it, by the
    wait or by a handler; the state and the calls are those made up to the
    exception. *)
Theorem main_ends_quietly_only_on_interrupt_or_EOF event_dispatcher_dict polls s s' log :
  try_main_loop event_dispatcher_dict polls s = (Some (Return tt), s', log) →
  ∃ e, (e = KeyboardInterrupt ∨ e = EOFError)
       ∧ main_loop event_dispatcher_dict polls s = (Some (Raise e), s', log).
Proof.
  unfold try_main_loop.
  destruct (main_loop event_dispatcher_dict polls s) as [[[[[]|e]|] s1] log1] eqn:Hloop.
  - destruct (main_loop_ends_raising _ _ _ _ _ _ Hloop) as [e He]. discriminate.
  - destruct e; cbn [passed]; try discriminate; intros [= <- <-].
    + exists KeyboardInterrupt. split; [by left|reflexivity].
    + exists EOFError. split; [by right|reflexivity].
  - discriminate.
Qed.

(** X14: when a handler raises, the handlers of the descriptors that
    follow in the ready list are not called and [epoll.poll()] is not
    called again; [main] ends, quietly for [KeyboardInterrupt] and
    [EOFError], with the exception for any other. *)
Theorem handler_exception_ends_main
    n event_dispatcher_dict before fd event after later (handler : P St unit)
    s s1 t1 s2 t2 e :
  dispatch event_dispatcher_dict before s = (Return tt, s1, t1) →
  event_dispatcher_dict !! fd = Some handler →
  handler s1 = (Raise e, s2, t2) →
  try_main_loop event_dispatcher_dict
    (replicate n interrupted ++ Return (before ++ (fd, event) :: after) :: later) s =
  (Some (if passed e then Return tt else Raise e), s2,
   t1 ++ TraceEpoll fd event :: t2).
Proof.
  intros Hbefore Hfd Hh. unfold try_main_loop.
  rewrite main_loop_unfold, noIntrEpoll_skips_interruptions.
  cbn [noIntrEpoll]. rewrite dispatch_app, Hbefore, dispatch_cons, Hfd, Hh.
  by destruct (passed e).
Qed.

(** X15: an event on a descriptor that is not in the dict raises KeyError
    once the event has been traced; the handlers that follow are not
    called, and [main] ends with that exception. *)
Theorem unregistered_descriptor_ends_main
    n event_dispatcher_dict before fd event after later s s1 t1 :
  dispatch event_dispatcher_dict before s = (Return tt, s1, t1) →
  event_dispatcher_dict !! fd = None →
  try_main_loop event_dispatcher_dict
    (replicate n interrupted ++ Return (before ++ (fd, event) :: after) :: later) s =
  (Some (Raise (Exception "KeyError")), s1, t1 ++ [TraceEpoll fd event]).
Proof.
  intros Hbefore Hfd. unfold try_main_loop.
  rewrite main_loop_unfold, noIntrEpoll_skips_interruptions.
  cbn [noIntrEpoll]. rewrite dispatch_app, Hbefore, dispatch_cons, Hfd.
  reflexivity.
Qed.

(** What [sender] does with what it read. *)
Lemma sender_unfold stdin_read write s :
  sender stdin_read write s =
  match stdin_read with
  | Raise e => (Raise e, s, [StdinRead BUF_SIZE (Raise e)])
  | Return buf =>
      (match write buf with Some e => Raise e | None => Return tt end, s,
       [StdinRead BUF_SIZE (Return buf); TraceSending (length buf);
        EndpointWrite buf (write buf)])
  end.
Proof.
  unfold sender, pcall, pemit, praise, mbind, P_bind, mret, P_ret.
  destruct stdin_read as [buf|e]; [|reflexivity].
  destruct (write buf); reflexivity.
Qed.

(** X16: end of input does not end [main].  While the read of the
    standard input returns the empty string and the endpoint accepts it,
    every readiness of the standard input makes [sender] hand an empty
    buffer to the endpoint and return, and the loop goes back to waiting,
    as many times as the descriptor is reported ready. *)
Theorem end_of_input_does_not_end_main
    n event_dispatcher_dict stdin event write s :
  event_dispatcher_dict !! stdin = Some (sender (Return []) write) →
  write [] = None →
  try_main_loop event_dispatcher_dict (replicate n (Return [(stdin, event)])) s =
  (None, s,
   mjoin (replicate n
     [TraceEpoll stdin event; StdinRead BUF_SIZE (Return []); TraceSending 0;
      EndpointWrite [] None])).
Proof.
  intros Hfd Hw.
  assert (Hloop : main_loop event_dispatcher_dict
                    (replicate n (Return [(stdin, event)])) s =
    (None, s,
     mjoin (replicate n
       [TraceEpoll stdin event; StdinRead BUF_SIZE (Return []); TraceSending 0;
        EndpointWrite [] None]))).
  { induction n as [|n IH]; [reflexivity|].
    rewrite main_loop_unfold. cbn [replicate noIntrEpoll].
    rewrite dispatch_cons, Hfd, sender_unfold, Hw. cbn [dispatch].
    unfold mret, P_ret. rewrite IH. reflexivity. }
  unfold try_main_loop. by rewrite Hloop.
Qed.

(** X17: [sender] hands to the endpoint, in one call, exactly the bytes it
    read, whatever their number; when the read raises, as it does when no
    input is ready on the non-blocking descriptor, nothing is written and
    the exception leaves [sender].  It never touches the state. *)
Theorem sender_forwards_what_it_read stdin_read write s :
  snd (fst (sender stdin_read write s)) = s
  ∧ endpoint_writes (snd (sender stdin_read write s)) =
      match stdin_read with
      | Return buf => [buf]
      | Raise _ => []
      end
  ∧ fst (fst (sender stdin_read write s)) =
      match stdin_read with
      | Return buf => match write buf with Some e => Raise e | None => Return tt end
      | Raise e => Raise e
      end.
Proof.
  rewrite sender_unfold. destruct stdin_read as [buf|e]; repeat split.
Qed.

End over_a_state.

Lemma main_ends_quietly_only_on_interrupt_or_EOF_witness :
  ∃ e, (e = KeyboardInterrupt ∨ e = EOFError)
       ∧ main_loop (∅ : gmap Z (P unit unit))
           [interrupted; Raise KeyboardInterrupt; Return [(0, 1)]] tt =
         (Some (Raise e), tt, []).
Proof.
  exact (main_ends_quietly_only_on_interrupt_or_EOF (∅ : gmap Z (P unit unit))
           [interrupted; Raise KeyboardInterrupt; Return [(0, 1)]] tt tt []
           eq_refl).
Defined.

(** A dict with one handler, on descriptor 5, that raises EOFError. *)
Lemma handler_exception_ends_main_witness :
  try_main_loop
    (<[5 := (fun s : unit => (Raise EOFError, s, [TraceSending 0]))]> ∅)
    (replicate 2 interrupted ++ Return ([] ++ (5, 1) :: [(5, 1)]) :: [Return [(5, 1)]])
    tt =
  (Some (Return tt), tt, [] ++ [TraceEpoll 5 1; TraceSending 0]).
Proof.
  exact (handler_exception_ends_main 2
           (<[5 := (fun s : unit => (Raise EOFError, s, [TraceSending 0]))]> ∅)
           [] 5 1 [(5, 1)] [Return [(5, 1)]]
           (fun s : unit => (Raise EOFError, s, [TraceSending 0]))
           tt tt [] tt [TraceSending 0] EOFError eq_refl eq_refl eq_refl).
Defined.

Lemma unregistered_descriptor_ends_main_witness :
  try_main_loop (∅ : gmap Z (P unit unit))
    (replicate 1 interrupted ++ Return ([] ++ (7, 1) :: []) :: []) tt =
  (Some (Raise (Exception "KeyError")), tt, [] ++ [TraceEpoll 7 1]).
Proof.
  exact (unregistered_descriptor_ends_main 1 (∅ : gmap Z (P unit unit))
           [] 7 1 [] [] tt tt [] eq_refl eq_refl).
Defined.

Lemma end_of_input_does_not_end_main_witness :
  try_main_loop
    (<[0 := sender (St:=unit) (Return []) (fun _ => None)]> ∅)
    (replicate 2 (Return [(0, 1)])) tt =
  (None, tt,
   mjoin (replicate 2
     [TraceEpoll 0 1; StdinRead BUF_SIZE (Return []); TraceSending 0;
      EndpointWrite [] None])).
Proof.
  exact (end_of_input_does_not_end_main 2
           (<[0 := sender (St:=unit) (Return []) (fun _ => None)]> ∅)
           0 1 (fun _ => None) tt eq_refl eq_refl).
Defined.

Section setup.
Context {St : Type}.

Lemma register_unfold (epoll_register : Z → option exn) fileno
    (handler : P St unit) (event_dispatcher_dict : gmap Z (P St unit)) :
  register epoll_register fileno handler event_dispatcher_dict =
  match epoll_register fileno with
  | Some e =>
      (Raise e, event_dispatcher_dict, [EpollRegister fileno EPOLLIN (Some e)])
  | None =>
      (Return tt, <[fileno := handler]> event_dispatcher_dict,
       [EpollRegister fileno EPOLLIN None])
  end.
Proof.
  unfold register, pcall, pemit, praise, pmodify, mbind, P_bind, mret, P_ret.
  destruct (epoll_register fileno); reflexivity.
Qed.

(** X18: when the three calls of [epoll.register] return, the dict built
    by [main] sends the descriptor of the standard input to [sender], that
    of ep0 to [processEvents] and the eventfd to [onAIOCompletion], a later
    registration winning over an earlier one of the same descriptor, and
    holds no other descriptor; the three descriptors have been registered
    with epoll for reading, in the order eventfd, ep0, standard input. *)
Theorem registrations_build_the_dict (epoll_register : Z → option exn)
    eventfd ep0 stdin (onAIOCompletion processEvents sender : P St unit) :
  epoll_register eventfd = None →
  epoll_register ep0 = None →
  epoll_register stdin = None →
  ∃ event_dispatcher_dict : gmap Z (P St unit),
    registrations epoll_register eventfd ep0 stdin
      onAIOCompletion processEvents sender =
    (Return tt, event_dispatcher_dict,
     [EpollRegister eventfd EPOLLIN None; EpollRegister ep0 EPOLLIN None;
      EpollRegister stdin EPOLLIN None])
    ∧ ∀ fd, event_dispatcher_dict !! fd =
        if decide (fd = stdin) then Some sender
        else if decide (fd = ep0) then Some processEvents
        else if decide (fd = eventfd) then Some onAIOCompletion
        else None.
Proof.
  intros H1 H2 H3.
  exists (<[stdin := sender]> (<[ep0 := processEvents]> (<[eventfd := onAIOCompletion]> ∅))).
  split.
  - unfold registrations, mbind, P_bind.
    rewrite register_unfold, H1, register_unfold, H2, register_unfold, H3.
    reflexivity.
  - intros fd. repeat case_decide; subst; simplify_map_eq; reflexivity.
Qed.

(** X19: the flags given to [F_SETFL] are those read by [F_GETFL] with
    [O_NONBLOCK] added: bit by bit the or of the two, so every flag that
    was set stays set, [O_NONBLOCK] is set, and flags that already had it
    are set again unchanged.  When [F_GETFL] raises, nothing is set. *)
Theorem set_nonblocking_adds_one_flag (getfl : outcome Z) (setfl : Z → option exn)
    (s : St) :
  match getfl with
  | Return flags =>
      set_nonblocking getfl setfl s =
        (match setfl (Z.lor flags O_NONBLOCK) with
         | Some e => Raise e
         | None => Return tt
         end, s,
         [FcntlGetfl (Return flags);
          FcntlSetfl (Z.lor flags O_NONBLOCK) (setfl (Z.lor flags O_NONBLOCK))])
      ∧ (∀ i, Z.testbit (Z.lor flags O_NONBLOCK) i =
              Z.testbit flags i || Z.testbit O_NONBLOCK i)
      ∧ Z.land (Z.lor flags O_NONBLOCK) flags = flags
      ∧ Z.land (Z.lor flags O_NONBLOCK) O_NONBLOCK = O_NONBLOCK
      ∧ (Z.land flags O_NONBLOCK = O_NONBLOCK → Z.lor flags O_NONBLOCK = flags)
  | Raise e =>
      set_nonblocking getfl setfl s = (Raise e, s, [FcntlGetfl (Raise e)])
  end.
Proof.
  unfold set_nonblocking, pcall, pemit, praise, mbind, P_bind, mret, P_ret.
  destruct getfl as [flags|e]; [|reflexivity].
  split; [by destruct (setfl _)|].
  split; [intros i; apply Z.lor_spec|].
  split; [|split].
  - apply Z.bits_inj'. intros i _.
    rewrite Z.land_spec, Z.lor_spec.
    by destruct (Z.testbit flags i), (Z.testbit O_NONBLOCK i).
  - apply Z.bits_inj'. intros i _.
    rewrite Z.land_spec, Z.lor_spec.
    by destruct (Z.testbit flags i), (Z.testbit O_NONBLOCK i).
  - intros Hset. apply Z.bits_inj'. intros i _.
    assert (Hb := f_equal (fun z => Z.testbit z i) Hset).
    cbn beta in Hb. rewrite Z.land_spec in Hb. rewrite Z.lor_spec.
    destruct (Z.testbit flags i), (Z.testbit O_NONBLOCK i);
      try reflexivity; discriminate Hb.
Qed.

(** X20: once the standard input has been made non-blocking and the three
    registrations have returned, a readiness of the eventfd, when that
    descriptor is neither ep0 nor the standard input, runs
    [onAIOCompletion] and no other handler, after any number of
    interrupted waits; a [KeyboardInterrupt] during the next wait then ends
    the body of [main] quietly. *)
Theorem main_routes_eventfd_to_onAIOCompletion
    n flags (setfl epoll_register : Z → option exn) eventfd ep0 stdin event
    (onAIOCompletion processEvents sender : P St unit) later (s s1 : St) t1 :
  setfl (Z.lor flags O_NONBLOCK) = None →
  epoll_register eventfd = None →
  epoll_register ep0 = None →
  epoll_register stdin = None →
  eventfd ≠ ep0 → eventfd ≠ stdin →
  onAIOCompletion s = (Return tt, s1, t1) →
  with_body (Return flags) setfl epoll_register eventfd ep0 stdin
    onAIOCompletion processEvents sender
    (replicate n interrupted ++ Return [(eventfd, event)]
       :: Raise KeyboardInterrupt :: later) s =
  (Some (Return tt), s1,
   [FcntlGetfl (Return flags); FcntlSetfl (Z.lor flags O_NONBLOCK) None]
   ++ [EpollRegister eventfd EPOLLIN None; EpollRegister ep0 EPOLLIN None;
       EpollRegister stdin EPOLLIN None]
   ++ TraceEpoll eventfd event :: t1).
Proof.
  intros Hset H1 H2 H3 Hne1 Hne2 Hh. unfold with_body.
  assert (Hnb : set_nonblocking (Return flags) setfl s =
    (Return tt, s,
     [FcntlGetfl (Return flags); FcntlSetfl (Z.lor flags O_NONBLOCK) None])).
  { unfold set_nonblocking, pcall, pemit, praise, mbind, P_bind, mret, P_ret.
    by rewrite Hset. }
  rewrite Hnb.
  assert (Hreg : registrations epoll_register eventfd ep0 stdin
                   onAIOCompletion processEvents sender =
    (Return tt,
     <[stdin := sender]> (<[ep0 := processEvents]> (<[eventfd := onAIOCompletion]> ∅)),
     [EpollRegister eventfd EPOLLIN None; EpollRegister ep0 EPOLLIN None;
      EpollRegister stdin EPOLLIN None])).
  { unfold registrations, mbind, P_bind.
    rewrite register_unfold, H1, register_unfold, H2, register_unfold, H3.
    reflexivity. }
  rewrite Hreg. unfold try_main_loop.
  rewrite main_loop_unfold, noIntrEpoll_skips_interruptions. cbn [noIntrEpoll].
  rewrite dispatch_cons.
  rewrite lookup_insert_ne by congruence.
  rewrite lookup_insert_ne by congruence.
  rewrite lookup_insert_eq, Hh. cbn [dispatch]. unfold mret, P_ret.
  rewrite main_loop_unfold. cbn [noIntrEpoll passed].
  by rewrite !app_nil_r.
Qed.

End setup.

Lemma main_routes_eventfd_to_onAIOCompletion_witness :
  with_body (Return 2) (fun _ => None) (fun _ => None) 4 3 0
    (lift (USBCat_methods.onAIOCompletion quiet))
    (pemit (TraceSending 2)) (sender (Return []) (fun _ => None))
    (replicate 1 interrupted ++ Return [(4, 1)] :: Raise KeyboardInterrupt :: [])
    (mkUSBCat true [block0; block1]) =
  (Some (Return tt), mkUSBCat true [block0; block1],
   [FcntlGetfl (Return 2); FcntlSetfl (Z.lor 2 O_NONBLOCK) None]
   ++ [EpollRegister 4 EPOLLIN None; EpollRegister 3 EPOLLIN None;
       EpollRegister 0 EPOLLIN None]
   ++ TraceEpoll 4 1
      :: [Method (EventfdRead (Return 1)); Method (Trace (T_eventfd_reports 1));
          Method (GetEvents None None None None)]).
Proof.
  refine (main_routes_eventfd_to_onAIOCompletion 1 2 (fun _ => None) (fun _ => None)
            4 3 0 1 (lift (USBCat_methods.onAIOCompletion quiet))
            (pemit (TraceSending 2)) (sender (Return []) (fun _ => None)) []
            (mkUSBCat true [block0; block1]) (mkUSBCat true [block0; block1])
            _ eq_refl eq_refl eq_refl eq_refl _ _ eq_refl); lia.
Defined.

Lemma registrations_build_the_dict_witness :
  ∃ event_dispatcher_dict : gmap Z (P unit unit),
    registrations (fun _ => None) 4 3 0
      (pemit (TraceSending 1)) (pemit (TraceSending 2)) (pemit (TraceSending 3)) =
    (Return tt, event_dispatcher_dict,
     [EpollRegister 4 EPOLLIN None; EpollRegister 3 EPOLLIN None;
      EpollRegister 0 EPOLLIN None])
    ∧ event_dispatcher_dict !! 3 = Some (pemit (TraceSending 2)).
Proof.
  destruct (registrations_build_the_dict (St:=unit) (fun _ => None) 4 3 0
              (pemit (TraceSending 1)) (pemit (TraceSending 2))
              (pemit (TraceSending 3)) eq_refl eq_refl eq_refl)
    as (event_dispatcher_dict & Heq & Hlookup).
  exists event_dispatcher_dict. split; [exact Heq|].
  rewrite Hlookup. reflexivity.
Defined.

End MainLoop.
